(** * tool-chain-core: the Chains execution engine and the Tasks runner

    A shallow embedding of the Chains engine ([TimeoutError], [shouldRetry],
    [normalizeError], [parseChainOptions], [wrapResult], [ChainsImpl],
    [ChainsInitImpl]; the line numbers in the comments are those of its
    source file) and of the Tasks runner of [src/tasks.ts], together with
    the properties of the specification that concern them.

    JavaScript promises are modelled by an explicit store of settled promises
    and a queue of suspended async tasks; every [await] of [newAsyncTask] is
    a program point of a small-step machine, so that what [chain] does
    before it returns is told apart from what happens on later turns of the
    event loop.  Three conventions:
    - a call of a step function is atomic: it changes the world when it is
      called and tells how its promise will settle; a call abandoned by a
      timeout has no later effect;
    - the event loop resumes the suspended tasks in creation order and runs
      each as far as it gets; since every task of a chain awaits the one
      before it, this is the order in which a chain runs;
    - numbers are integers; a timer with a negative delay is a timer with
      delay 0. *)

From stdpp Require Import gmap strings list fin_maps pretty sorting.
From Stdlib Require Import ZArith Lia.

Local Open Scope string_scope.
Local Open Scope list_scope.
Local Open Scope Z_scope.
Local Set Warnings "-register-all".

(** ** JavaScript values and errors *)

Module JS.

(** Constructors of error classes, with their prototype chain.  [CError] is
    the built-in [Error]; [CTimeoutError] is the module-private
    [class TimeoutError extends Error]; [CUser] is a class declared by the
    caller. *)
Inductive Ctor :=
| CError
| CTimeoutError
| CUser (name : string) (parent : Ctor).

Fixpoint Ctor_eqb (a b : Ctor) : bool :=
  match a, b with
  | CError, CError => true
  | CTimeoutError, CTimeoutError => true
  | CUser n p, CUser m q => bool_decide (n = m) && Ctor_eqb p q
  | _, _ => false
  end.

(** The chain of constructors an instance of [c] is an [instanceof]. *)
Fixpoint prototype_chain (c : Ctor) : list Ctor :=
  match c with
  | CError => [CError]
  | CTimeoutError => [CTimeoutError; CError]
  | CUser _ parent => c :: prototype_chain parent
  end.

(** An [Error] object: its constructor, [message] and [name], and the two
    extra read-only fields a [TimeoutError] carries. *)
Record Error := mkError {
  err_ctor : Ctor;
  err_name : string;
  err_message : string;
  err_timeout : option Z;
  err_step : option Z;
}.

(** [new Error(message)] *)
Definition new_Error (message : string) : Error :=
  {| err_ctor := CError; err_name := "Error"; err_message := message;
     err_timeout := None; err_step := None |}.

(** [error instanceof C] *)
Definition instanceof (e : Error) (c : Ctor) : bool :=
  existsb (Ctor_eqb c) (prototype_chain (err_ctor e)).

Inductive Value :=
| VUndefined
| VNull
| VBool (b : bool)
| VNumber (n : Z)
| VNaN
| VString (s : string)
| VError (e : Error)
| VObject (fields : list (string * Value)).

(** [String(x)] for a value that is not an [Error]. *)
Definition String_of (x : Value) : string :=
  match x with
  | VUndefined => "undefined"
  | VNull => "null"
  | VBool true => "true"
  | VBool false => "false"
  | VNumber n => pretty n
  | VNaN => "NaN"
  | VString s => s
  | VError e => err_name e +:+ ": " +:+ err_message e
  | VObject _ => "[object Object]"
  end.

(** [haystack.includes(needle)] *)
Fixpoint includes (haystack needle : string) : bool :=
  String.prefix needle haystack ||
  match haystack with
  | EmptyString => false
  | String _ rest => includes rest needle
  end.

End JS.
Import JS.

(** ** The Chains engine *)

Module Chains.

(** [class TimeoutError extends Error], lines 64-74. *)
Definition new_TimeoutError (timeout : Z) (step : option Z) : Error :=
  let stepInfo :=
    match step with
    | Some n => " at step " +:+ pretty n
    | None => ""
    end in
  {| err_ctor := CTimeoutError;
     err_name := "TimeoutError";
     err_message := "Operation timeout" +:+ stepInfo +:+ ": exceeded " +:+ pretty timeout +:+ "ms";
     err_timeout := Some timeout;
     err_step := step |}.

(** The shapes the [retryWhen] option can take.  [RwFunction None] is a
    function that is not a constructor, for which [instanceof] throws; a
    [RegExp] is given by its [test] method. *)
Inductive RetryWhen :=
| RwFunction (ctor : option Ctor)
| RwError (instance : Error)
| RwString (s : string)
| RwRegExp (test : string -> bool).

(** [shouldRetry], lines 104-131. *)
Definition shouldRetry (error : Error) (retryWhen : option RetryWhen) : bool :=
  match retryWhen with
  | None => true
  | Some (RwString "") => true
  | Some (RwFunction (Some c)) => instanceof error c
  | Some (RwFunction None) => false
  | Some (RwError instance) => instanceof error (err_ctor instance)
  | Some (RwString s) =>
      if bool_decide (s = "timeout") then instanceof error CTimeoutError
      else includes (err_message error) s
  | Some (RwRegExp test) => test (err_message error)
  end.

(** [normalizeError], lines 141-143. *)
Definition normalizeError (error : Value) : Error :=
  match error with
  | VError e => e
  | _ => new_Error (String_of error)
  end.

(** The options object of [chain]; every key is optional. *)
Record ChainOptions := mkChainOptions {
  withoutThrow : option bool;
  retry : option Z;
  retryWhen : option RetryWhen;
  retryDelay : option Z;
  timeout : option Z;
}.

Record ParsedOptions := mkParsed {
  p_withoutThrow : bool;
  p_maxRetries : Z;
  p_retryWhen : option RetryWhen;
  p_retryDelay : Z;
  p_timeout : option Z;
}.

(** [parseChainOptions], lines 153-161. *)
Definition parseChainOptions (options : option ChainOptions) : ParsedOptions :=
  {| p_withoutThrow := default false (options ≫= withoutThrow);
     p_maxRetries := default 0 (options ≫= retry);
     p_retryWhen := options ≫= retryWhen;
     p_retryDelay := default 0 (options ≫= retryDelay);
     p_timeout := options ≫= timeout |}.

(** How a function call completes: it returns a value or throws an error. *)
Inductive Completion :=
| Return (v : Value)
| Throw (e : Error).

(** [wrapResult], lines 173-185. *)
Definition wrapResult (result : Value) (error : option Error) (withoutThrow : bool) : Completion :=
  match error with
  | Some error =>
      if withoutThrow then Return (VObject [("error", VError error)])
      else Throw error
  | None =>
      if withoutThrow then Return (VObject [("data", result)])
      else Return result
  end.

(** *** Promises and async tasks

    [Promise.resolve(fn(resultProxy))] is described by the way it settles:
    fulfilled or rejected [ms] milliseconds after the call ([0] for a
    synchronous return), thrown synchronously by [fn] before any promise
    exists, or never settled. *)
Inductive Settle :=
| Fulfils (v : Value) (ms : Z)
| Rejects (x : Value) (ms : Z)
| ThrowsSync (x : Value)
| Never.

Inductive Raced :=
| Won (result : Value)
| Lost (error : Value)
| Stuck.

(** The [await] of lines 315-322 (461-470): with a [timeout], the step is
    raced against [setTimeout(..., timeout)], which was registered after the
    call and therefore loses a tie; without one the step is awaited as it
    is. *)
Definition race (timeout : option Z) (step : Z) (s : Settle) : Raced :=
  match timeout with
  | Some timeout =>
      let timed_out := Lost (VError (new_TimeoutError timeout (Some step))) in
      match s with
      | Fulfils v ms => if ms <=? Z.max 0 timeout then Won v else timed_out
      | Rejects x ms => if ms <=? Z.max 0 timeout then Lost x else timed_out
      | ThrowsSync x => Lost x
      | Never => timed_out
      end
  | None =>
      match s with
      | Fulfils v _ => Won v
      | Rejects x _ => Lost x
      | ThrowsSync x => Lost x
      | Never => Stuck
      end
  end.

(** The closure an async task was created in: [ChainsInitImpl.chain]
    captures [currentResultIndex]; [ChainsImpl.chain] captures
    [this.asyncTask] (the promise it awaits) and [this.index]. *)
Inductive Owner :=
| OfInit (currentResultIndex : Z)
| OfImpl (asyncTask : nat) (index : Z).

(** Program points of [newAsyncTask].  [AwaitPrevious], [AwaitStep] and
    [AwaitDelay] are the three [await]s, where the task is suspended. *)
Inductive Point :=
| AwaitPrevious
| LoopHead (attempt : Z)
| AwaitStep (attempt : Z) (s : Settle)
| Caught (attempt : Z) (error : Value)
| AwaitDelay (attempt : Z).

Definition is_await (pt : Point) : bool :=
  match pt with
  | AwaitPrevious | AwaitStep _ _ | AwaitDelay _ => true
  | LoopHead _ | Caught _ _ => false
  end.

Inductive Next :=
| Goto (pt : Point)
| Settled (c : Completion)
| Blocked.

Inductive Status :=
| Parked (pt : Point)
| Done (c : Completion).

Inductive Event :=
| EvCall (task : nat) (attempt : Z) (seen : gmap string Value) (s : Settle)
| EvWrite (task : nat) (key : string) (v : Value)
| EvSleep (task : nat) (ms : Z)
| EvSettle (task : nat) (c : Completion).

Inductive Beat :=
| Attempt
| Pause.

(** One attempt, then [n] more, each after a pause if [retryDelay > 0]. *)
Definition attempts_with_retries (retryDelay : Z) (n : nat) : list Beat :=
  Attempt :: concat (replicate n ((if 0 <? retryDelay then [Pause] else []) ++ [Attempt])).

(** Steps that suffice to run a task from [pt] to its end. *)
Definition budget (maxRetries : Z) (pt : Point) : nat :=
  match pt with
  | AwaitPrevious => 4 * Z.to_nat maxRetries + 4
  | LoopHead a => 4 * Z.to_nat (maxRetries - a) + 3
  | AwaitStep a _ => 4 * Z.to_nat (maxRetries - a) + 2
  | Caught a _ => 4 * Z.to_nat (maxRetries - a) + 1
  | AwaitDelay a => 4 * Z.to_nat (maxRetries - a) + 4
  end%nat.

(** The key [`r${index}`] of the execution history. *)
Definition key (index : Z) : string := "r" +:+ pretty index.

(** [key.startsWith('r')] *)
Definition startsWith_r (key : string) : bool := String.prefix "r" key.

(** The history after the writes of a trace. *)
Definition replay (tr : list Event) (h : gmap string Value) : gmap string Value :=
  fold_left (fun h ev =>
               match ev with
               | EvWrite _ k v => <[k := v]> h
               | _ => h
               end) tr h.

(** [error] is what the attempt that settled as [r] failed with, normalized,
    or it is a [TimeoutError]. *)
Definition original (r : Settle) (error : Error) : Prop :=
  (exists x, (r = ThrowsSync x \/ exists ms, r = Rejects x ms) /\ error = normalizeError x) \/
  (exists timeout step, error = new_TimeoutError timeout (Some step)).

(** The history that holds the values of [l] at the positions [pos],
    [pos + 1], ... *)
Fixpoint positions (pos : Z) (l : list Value) : gmap string Value :=
  match l with
  | [] => ∅
  | v :: l => <[key pos := v]> (positions (pos + 1) l)
  end.

(** The seed, when one is given, is the value at position 1. *)
Definition seeded (seed : Value) : list Value :=
  match seed with
  | VUndefined => []
  | _ => [seed]
  end.

(** The history in which the seed and then the results [rs] are recorded,
    from position 1 on. *)
Definition entries (seed : Value) (rs : list Value) : gmap string Value :=
  positions 1 (seeded seed ++ rs).

(** Every call of a step function in the trace satisfies [Q], given who
    was called, the number of the attempt, the history the results proxy
    read from and how the call settled. *)
Definition each_call (Q : nat -> Z -> gmap string Value -> Settle -> Prop)
    (tr : list Event) : Prop :=
  Forall (fun ev =>
            match ev with
            | EvCall n a seen r => Q n a seen r
            | _ => True
            end) tr.

(** The attempts of a trace: the value of [attempt] at each call and how the
    call settled. *)
Definition attempts (tr : list Event) : list (Z * Settle) :=
  omap (fun ev =>
          match ev with
          | EvCall _ a _ r => Some (a, r)
          | _ => None
          end) tr.

(** The attempts that settled as [rs], numbered from 0. *)
Definition numbered (rs : list Settle) : list (Z * Settle) :=
  imap (fun i r => (Z.of_nat i, r)) rs.

(** The call settles before a timer of [timeout] milliseconds fires. *)
Definition punctual (timeout : Z) (r : Settle) : Prop :=
  match r with
  | Fulfils _ ms | Rejects _ ms => ms <= Z.max 0 timeout
  | ThrowsSync _ => True
  | Never => False
  end.

(** The call awaited at [pt], if one is, is [punctual]. *)
Definition awaits_punctual (timeout : Z) (pt : Point) : Prop :=
  match pt with
  | AwaitStep _ r => punctual timeout r
  | _ => True
  end.

(** The event is a call of the step function of the task [k]. *)
Definition is_call_of (k : nat) (ev : Event) : bool :=
  match ev with
  | EvCall n _ _ _ => bool_decide (n = k)
  | _ => false
  end.

(** The number of times the step function of the task [k] was called. *)
Definition times_called (k : nat) (tr : list Event) : nat :=
  length (List.filter (is_call_of k) tr).

Section Engine.

(** Everything the step functions can read and change besides the results
    they are given. *)
Context {World : Type}.

(** A step function receives the results proxy, given by its [get] trap. *)
Definition StepFn : Type := (string -> Value) -> World -> Settle * World.

Record Task := mkTask {
  t_promise : nat;
  t_fn : StepFn;
  t_options : ParsedOptions;
  t_owner : Owner;
  t_point : Point;
}.

(** The heap reachable from one [new Chains(...)]: the world of the step
    functions, the execution history object shared by every builder derived
    from it, and the promises settled so far; [trace] records what happened,
    in order. *)
Record Store := mkStore {
  world : World;
  history : gmap string Value;
  promises : gmap nat Completion;
  trace : list Event;
}.

(** The heap together with the async tasks that are suspended, in creation
    order. *)
Record Engine := mkEngine {
  store : Store;
  tasks : list Task;
  next_promise : nat;
}.

Definition log (ev : Event) (s : Store) : Store :=
  mkStore (world s) (history s) (promises s) (trace s ++ [ev]).

(** The [get] trap of the proxy of [ChainsImpl.chain], lines 295-301. *)
Definition proxy_get (history : gmap string Value) (prop : string) : Value :=
  if startsWith_r prop then default VUndefined (history !! prop) else VUndefined.

(** The [get] trap of the proxy of [ChainsInitImpl.chain], lines 449-455. *)
Definition init_proxy_get (executionHistory : gmap string Value) (prop : string) : Value :=
  match executionHistory !! prop with
  | Some v => v
  | None => VUndefined
  end.

(** Lines 307-311: [this.history[`r${this.index}`] = previousResult]. *)
Definition write_back (t : Task) (s : Store) : Store :=
  match t_owner t with
  | OfImpl asyncTask index =>
      if 0 <? index then
        match promises s !! asyncTask with
        | Some (Return previousResult) =>
            log (EvWrite (t_promise t) (key index) previousResult)
              (mkStore (world s) (<[key index := previousResult]> (history s))
                 (promises s) (trace s))
        | _ => s
        end
      else s
  | OfInit _ => s
  end.

(** [fn(resultProxy)] *)
Definition call (t : Task) (attempt : Z) (s : Store) : Settle * Store :=
  let resultProxy :=
    match t_owner t with
    | OfImpl _ _ => proxy_get (history s)
    | OfInit _ => init_proxy_get (history s)
    end in
  let '(r, w) := t_fn t resultProxy (world s) in
  (r, log (EvCall (t_promise t) attempt (history s) r)
        (mkStore w (history s) (promises s) (trace s))).

(** The step number given to [TimeoutError]: [currentIndex] at line 318,
    [currentResultIndex + 1] at line 465. *)
Definition timeout_step (o : Owner) : Z :=
  match o with
  | OfImpl _ index => index
  | OfInit currentResultIndex => currentResultIndex + 1
  end.

(** One transition of [newAsyncTask] (lines 284-343 and 439-491). *)
Definition step (t : Task) (pt : Point) (s : Store) : Store * Next :=
  let o := t_options t in
  match pt with
  | AwaitPrevious =>
      match t_owner t with
      | OfImpl asyncTask _ =>
          match promises s !! asyncTask with
          | Some (Return _) => (s, Goto (LoopHead 0))
          | Some (Throw error) => (s, Settled (Throw error))
          | None => (s, Blocked)
          end
      | OfInit _ => (s, Goto (LoopHead 0))
      end
  | LoopHead attempt =>
      if attempt <=? p_maxRetries o then
        let '(r, s) := call t attempt (write_back t s) in
        match r with
        | ThrowsSync error => (s, Goto (Caught attempt error))
        | _ => (s, Goto (AwaitStep attempt r))
        end
      else (s, Settled (Return VUndefined))
  | AwaitStep attempt r =>
      match race (p_timeout o) (timeout_step (t_owner t)) r with
      | Won result => (s, Settled (wrapResult result None (p_withoutThrow o)))
      | Lost error => (s, Goto (Caught attempt error))
      | Stuck => (s, Blocked)
      end
  | Caught attempt error =>
      let lastError := normalizeError error in
      if (attempt <? p_maxRetries o) && shouldRetry lastError (p_retryWhen o) then
        if 0 <? p_retryDelay o then
          (log (EvSleep (t_promise t) (p_retryDelay o)) s, Goto (AwaitDelay (attempt + 1)))
        else (s, Goto (LoopHead (attempt + 1)))
      else (s, Settled (wrapResult VUndefined (Some lastError) (p_withoutThrow o)))
  | AwaitDelay attempt => (s, Goto (LoopHead attempt))
  end.

(** Runs a task from [pt]: with [sync], until it reaches an [await]; without,
    through its [await]s until it settles or can never be resumed. *)
Fixpoint run (sync : bool) (fuel : nat) (t : Task) (pt : Point) (s : Store)
  : option (Store * Status) :=
  match fuel with
  | O => None
  | S fuel =>
      match step t pt s with
      | (s, Goto pt) =>
          if sync && is_await pt then Some (s, Parked pt) else run sync fuel t pt s
      | (s, Settled c) => Some (s, Done c)
      | (s, Blocked) => Some (s, Parked pt)
      end
  end.

Definition exec (sync : bool) (t : Task) (pt : Point) (s : Store) : option (Store * Status) :=
  run sync (budget (p_maxRetries (t_options t)) pt) t pt s.

(** The promise of the task is settled. *)
Definition settle (t : Task) (c : Completion) (s : Store) : Store :=
  log (EvSettle (t_promise t) c)
    (mkStore (world s) (history s) (<[t_promise t := c]> (promises s)) (trace s)).

Definition at_point (t : Task) (pt : Point) : Task :=
  mkTask (t_promise t) (t_fn t) (t_options t) (t_owner t) pt.

(** What running [t] from where it is suspended leaves in the heap, and
    where it is suspended afterwards, if it is. *)
Definition advance_store (sync : bool) (t : Task) (s : Store) : Store * option Task :=
  match exec sync t (t_point t) s with
  | Some (s, Done c) => (settle t c s, None)
  | Some (s, Parked pt) => (s, Some (at_point t pt))
  | None => (s, Some t)
  end.

Definition advance (sync : bool) (t : Task) (e : Engine) : Engine :=
  let '(s, parked) := advance_store sync t (store e) in
  mkEngine s (tasks e ++ option_list parked) (next_promise e).

(** The builders.  [executionHistory] and [history] are references to the
    history object of the engine. *)
Record ChainsInitImpl := mkChainsInitImpl { resultIndex : Z }.
Record ChainsImpl := mkChainsImpl { asyncTask : nat; index : Z }.

(** [new Chains(initialData)], lines 390-397 and 558-560. *)
Definition new_Chains (initialData : Value) (w : World) : ChainsInitImpl * Engine :=
  match initialData with
  | VUndefined => (mkChainsInitImpl 0, mkEngine (mkStore w ∅ ∅ []) [] O)
  | _ => (mkChainsInitImpl 1, mkEngine (mkStore w {[ "r1" := initialData ]} ∅ []) [] O)
  end.

(** [ChainsInitImpl.chain], lines 432-494: [newAsyncTask()] is called at
    once and runs until its first [await]. *)
Definition ChainsInitImpl_chain (this : ChainsInitImpl) (fn : StepFn)
    (options : option ChainOptions) (e : Engine) : ChainsImpl * Engine :=
  let t := mkTask (next_promise e) fn (parseChainOptions options)
             (OfInit (resultIndex this)) (LoopHead 0) in
  (mkChainsImpl (t_promise t) (resultIndex this + 1),
   advance true t (mkEngine (store e) (tasks e) (S (next_promise e)))).

(** [ChainsImpl.chain], lines 280-346: [newAsyncTask()] is called at once
    and is suspended at [await this.asyncTask]. *)
Definition ChainsImpl_chain (this : ChainsImpl) (fn : StepFn)
    (options : option ChainOptions) (e : Engine) : ChainsImpl * Engine :=
  let t := mkTask (next_promise e) fn (parseChainOptions options)
             (OfImpl (asyncTask this) (index this)) AwaitPrevious in
  (mkChainsImpl (t_promise t) (index this + 1),
   mkEngine (store e) (tasks e ++ [t]) (S (next_promise e))).

(** The event loop: every suspended task is resumed, the older first, and
    run as far as it gets. *)
Definition event_loop (e : Engine) : Engine :=
  fold_left (fun e t => advance false t e) (tasks e)
    (mkEngine (store e) [] (next_promise e)).

(** [ChainsImpl.invoke], lines 354-356: [await this.asyncTask].  [None] is a
    promise that never settles. *)
Definition ChainsImpl_invoke (this : ChainsImpl) (e : Engine) : option Completion * Engine :=
  let e := event_loop e in
  (promises (store e) !! asyncTask this, e).

(** [ChainsInitImpl.invoke], lines 502-505. *)
Definition ChainsInitImpl_invoke (this : ChainsInitImpl) (e : Engine) : option Completion * Engine :=
  (Some (Return VUndefined), e).

(** [b.chain(fn1, o1).chain(fn2, o2)...] *)
Fixpoint chain_all (b : ChainsImpl) (steps : list (StepFn * option ChainOptions))
    (e : Engine) : ChainsImpl * Engine :=
  match steps with
  | [] => (b, e)
  | (fn, options) :: steps =>
      let '(b, e) := ChainsImpl_chain b fn options e in chain_all b steps e
  end.

(** [new Chains(seed).chain(fn, options).chain(...)...] *)
Definition build (seed : Value) (first : StepFn * option ChainOptions)
    (rest : list (StepFn * option ChainOptions)) (w : World) : ChainsImpl * Engine :=
  let '(b, e) := new_Chains seed w in
  let '(b, e) := ChainsInitImpl_chain b (fst first) (snd first) e in
  chain_all b rest e.

(** [await new Chains(seed).chain(...)....invoke()] *)
Definition chains (seed : Value) (first : StepFn * option ChainOptions)
    (rest : list (StepFn * option ChainOptions)) (w : World) : option Completion * Engine :=
  let '(b, e) := build seed first rest w in ChainsImpl_invoke b e.

(** *** Notions used to state the properties *)

(** The tasks [chain_all] creates: each awaits the promise of the one
    before it. *)
Fixpoint later_tasks (n prev : nat) (index : Z)
    (steps : list (StepFn * option ChainOptions)) : list Task :=
  match steps with
  | [] => []
  | (fn, options) :: steps =>
      mkTask n fn (parseChainOptions options) (OfImpl prev index) AwaitPrevious
        :: later_tasks (S n) n (index + 1) steps
  end.

(** The heap after every task of [ts] was resumed in turn. *)
Definition run_all (ts : list Task) (s : Store) : Store :=
  fold_left (fun s t => fst (advance_store false t s)) ts s.

(** The calls of step functions in a trace: who was called, the history
    its results proxy read from, and how the call settled. *)
Definition calls (tr : list Event) : list (nat * gmap string Value * Settle) :=
  omap (fun ev =>
          match ev with
          | EvCall k _ seen r => Some (k, seen, r)
          | _ => None
          end) tr.

(** The task an event belongs to. *)
Definition ev_task (ev : Event) : nat :=
  match ev with
  | EvCall k _ _ _ | EvWrite k _ _ | EvSleep k _ | EvSettle k _ => k
  end.

(** Whether the step at [Caught] is run again. *)
Definition retried (r : Store * Next) : bool :=
  match r with
  | (_, Goto _) => true
  | _ => false
  end.

(** The parts of [new Chains(seed).chain(first)...]: the index of the
    fresh builder, its heap, and the task of the first step. *)
Definition seed_index (seed : Value) : Z :=
  match seed with
  | VUndefined => 0
  | _ => 1
  end.

Definition init_store (seed : Value) (w : World) : Store :=
  match seed with
  | VUndefined => mkStore w ∅ ∅ []
  | _ => mkStore w {[ "r1" := seed ]} ∅ []
  end.

Definition first_task (seed : Value) (first : StepFn * option ChainOptions) : Task :=
  mkTask O (fst first) (parseChainOptions (snd first)) (OfInit (seed_index seed)) (LoopHead 0).

(** The heap when [chain] has returned for every step. *)
Definition built_store (seed : Value) (first : StepFn * option ChainOptions) (w : World) : Store :=
  fst (advance_store true (first_task seed first) (init_store seed w)).

Definition built_tasks (seed : Value) (first : StepFn * option ChainOptions)
    (rest : list (StepFn * option ChainOptions)) (w : World) : list Task :=
  option_list (snd (advance_store true (first_task seed first) (init_store seed w)))
    ++ later_tasks 1 0 (seed_index seed + 1) rest.

(** The heap when the event loop has run every task. *)
Definition final_store (seed : Value) (first : StepFn * option ChainOptions)
    (rest : list (StepFn * option ChainOptions)) (w : World) : Store :=
  run_all (built_tasks seed first rest w) (built_store seed first w).

(** Every call of the step function fulfils, before its timeout if it has
    one. *)
Definition succeeds (step : StepFn * option ChainOptions) : Prop :=
  let o := parseChainOptions (snd step) in
  0 <= p_maxRetries o /\
  forall view w, exists v ms,
    fst (fst step view w) = Fulfils v ms /\
    match p_timeout o with
    | Some timeout => ms <= Z.max 0 timeout
    | None => True
    end.

(** The tasks of [new Chains(seed).chain(first).chain(...)...], each at the
    point where it starts. *)
Definition all_tasks (seed : Value) (first : StepFn * option ChainOptions)
    (rest : list (StepFn * option ChainOptions)) : list Task :=
  first_task seed first :: later_tasks 1 0 (seed_index seed + 1) rest.

(** An event of a run of [t] that started in the heap [s]: it carries the
    promise of [t], and a write stores the result of the awaited promise at
    [`r${this.index}`]. *)
Definition own (t : Task) (s : Store) (ev : Event) : Prop :=
  ev_task ev = t_promise t /\
  match ev with
  | EvWrite _ k v =>
      exists p i, t_owner t = OfImpl p i /\ 0 < i /\ k = key i /\
                  promises s !! p = Some (Return v)
  | _ => True
  end.

(** The heap [s'] is reached from [s] by events of [t]. *)
Definition reaches (t : Task) (s s' : Store) : Prop :=
  promises s' = promises s /\
  exists evs, trace s' = trace s ++ evs /\
              history s' = replay evs (history s) /\
              Forall (own t s) evs.

(** The index a task created by [ChainsImpl.chain] writes at is the
    position of the step whose promise it awaits. *)
Definition linked (seed : Value) (t : Task) : Prop :=
  match t_owner t with
  | OfImpl p i => i = seed_index seed + Z.of_nat (S p)
  | OfInit _ => True
  end.

(** The history holds the seed at position 1, if there is one, and at the
    position of a step the value its promise was resolved with, and nothing
    else; it is what the writes of the trace made it; and no entry a step
    function could read has changed or disappeared since. *)
Definition coherent (seed : Value) (s : Store) : Prop :=
  (forall k v, history s !! k = Some v ->
     (k = key 1 /\ seeded seed = [v]) \/
     (exists i, k = key (seed_index seed + Z.of_nat (S i)) /\
                promises s !! i = Some (Return v))) /\
  history s = replay (trace s) (entries seed []) /\
  (forall n a seen r, EvCall n a seen r ∈ trace s -> seen ⊆ history s).

(** What holds of the heap before the task at position [j] of a chain is
    resumed: it is coherent, the promises of the tasks from [j] on are
    pending, the trace has the events of the tasks before [j], in the order
    of the tasks, and every write was made by the task after the step whose
    value it stores, at the position of that step. *)
Definition chain_inv (seed : Value) (j : nat) (s : Store) : Prop :=
  coherent seed s /\
  (forall m, (j <= m)%nat -> promises s !! m = None) /\
  Forall (fun ev => (ev_task ev < j)%nat) (trace s) /\
  StronglySorted (fun a b => (ev_task a <= ev_task b)%nat) (trace s) /\
  (forall n k v, EvWrite n k v ∈ trace s ->
     exists i, n = S i /\ k = key (seed_index seed + Z.of_nat (S i)) /\
               promises s !! i = Some (Return v)).

(** The heap before the task at position [j] of [ts] is resumed. *)
Definition before (ts : list Task) (s : Store) (j : nat) : Store :=
  run_all (take j ts) s.

(** The error an attempt that settled as [r] is caught with, if it failed:
    what the function threw, what its promise was rejected with, or the
    [TimeoutError] of the race. *)
Definition failure (timeout : option Z) (step : Z) (r : Settle) : option Value :=
  match r with
  | ThrowsSync x => Some x
  | _ =>
      match race timeout step r with
      | Lost x => Some x
      | _ => None
      end
  end.

(** Every attempt of the task fails. *)
Definition always_fails (t : Task) : Prop :=
  forall view w,
    is_Some (failure (p_timeout (t_options t)) (timeout_step (t_owner t))
               (fst (t_fn t view w))).

(** The attempts and pauses of a trace, in order. *)
Definition schedule (tr : list Event) : list Beat :=
  omap (fun ev =>
          match ev with
          | EvCall _ _ _ _ => Some Attempt
          | EvSleep _ _ => Some Pause
          | _ => None
          end) tr.

(** The call of the step function fulfilled, and [v] is what the step
    resolved to: the value itself, or [{ data: value }] under
    [withoutThrow]. *)
Definition fulfilled (step : StepFn * option ChainOptions) (r : Settle) (v : Value) : Prop :=
  exists x ms, r = Fulfils x ms /\
    wrapResult x None (p_withoutThrow (parseChainOptions (snd step))) = Return v.

(** The task with the [timeout] option removed. *)
Definition without_timeout (t : Task) : Task :=
  let o := t_options t in
  mkTask (t_promise t) (t_fn t)
    (mkParsed (p_withoutThrow o) (p_maxRetries o) (p_retryWhen o) (p_retryDelay o) None)
    (t_owner t) (t_point t).

(** The attempt numbered [attempt], which settled as [r], is one the loop of
    [newAsyncTask] goes round again after: it failed, retries are left, and
    the error matches [retryWhen] (lines 330 and 478). *)
Definition retriable (t : Task) (attempt : Z) (r : Settle) : Prop :=
  attempt < p_maxRetries (t_options t) /\
  exists x,
    failure (p_timeout (t_options t)) (timeout_step (t_owner t)) r = Some x /\
    shouldRetry (normalizeError x) (p_retryWhen (t_options t)) = true.

(** What holds at the point [pt] of a run of [t] that entered its loop in
    the heap [s0]: the attempts and pauses so far are those of a number of
    retries, with the pause of the next retry when it has been taken. *)
Definition paced (t : Task) (s0 : Store) (pt : Point) (s : Store) : Prop :=
  let M := p_maxRetries (t_options t) in
  let d := p_retryDelay (t_options t) in
  exists evs, trace s = trace s0 ++ evs /\
    match pt with
    | AwaitPrevious => False
    | LoopHead a =>
        (a = 0 /\ schedule evs = []) \/
        (0 < a <= M /\
         schedule evs = attempts_with_retries d (Z.to_nat (a - 1))
                          ++ (if 0 <? d then [Pause] else []))
    | AwaitStep a _ | Caught a _ =>
        0 <= a <= M /\ schedule evs = attempts_with_retries d (Z.to_nat a)
    | AwaitDelay a =>
        0 < a <= M /\
        schedule evs = attempts_with_retries d (Z.to_nat (a - 1))
                         ++ (if 0 <? d then [Pause] else [])
    end.

(** The run is in the loop, and a call that is awaited is the last event of
    the trace. *)
Definition started (t : Task) (pt : Point) (s : Store) : Prop :=
  pt <> AwaitPrevious /\
  forall a r, pt = AwaitStep a r ->
    exists pre seen, trace s = pre ++ [EvCall (t_promise t) a seen r].

(** The attempts so far are numbered from 0, and each of them but the one
    in progress was followed by a retry because it was [retriable]. *)
Definition retrying (t : Task) (s0 : Store) (pt : Point) (s : Store) : Prop :=
  exists evs rs,
    trace s = trace s0 ++ evs /\
    attempts evs = numbered rs /\
    match pt with
    | AwaitPrevious => False
    | LoopHead a | AwaitDelay a =>
        a = Z.of_nat (length rs) /\
        forall i r, rs !! i = Some r -> retriable t (Z.of_nat i) r
    | AwaitStep a r =>
        exists rs', rs = rs' ++ [r] /\ a = Z.of_nat (length rs') /\
          forall i r, rs' !! i = Some r -> retriable t (Z.of_nat i) r
    | Caught a x =>
        exists rs' r, rs = rs' ++ [r] /\ a = Z.of_nat (length rs') /\
          failure (p_timeout (t_options t)) (timeout_step (t_owner t)) r = Some x /\
          forall i r, rs' !! i = Some r -> retriable t (Z.of_nat i) r
    end.

(** The tasks that are still suspended after every task of [ts] was resumed
    in turn: the [tasks] the event loop leaves. *)
Fixpoint suspended (ts : list Task) (s : Store) : list Task :=
  match ts with
  | [] => []
  | t :: ts =>
      option_list (snd (advance_store false t s))
        ++ suspended ts (fst (advance_store false t s))
  end.

End Engine.

Arguments Task : clear implicits.
Arguments Store : clear implicits.
Arguments Engine : clear implicits.
Arguments StepFn : clear implicits.

End Chains.

(** ** The Tasks runner *)

Module Tasks.

(** What a task function does with its context, in order: it returns, it
    throws (or rejects), it awaits [next(value)] inside a [try] whose
    [catch] block is [handler], or it awaits [finish()].  [Next] is a call
    of [next] outside any [try]: its rejection is rethrown. *)
Inductive Script :=
| Returns
| Throws (error : Value)
| TryNext (value : option Value) (k : Script) (handler : Value -> Script)
| Finish (k : Script).

Definition Next (value : option Value) (k : Script) : Script :=
  TryNext value k Throws.

(** A task function, by what it does for each [context.param]. *)
Definition TaskFn : Type := Value -> Script.

Inductive Event :=
| Started (index : nat) (param : Value)
| Returned (index : nat) (isNextCalled : bool)
| Threw (index : nat) (error : Value).

(** The fields of a [Tasks] object; [trace] records what happened. *)
Record State := mkState {
  tasks : list TaskFn;
  shouldStop : bool;
  trace : list Event;
}.

Inductive Result :=
| Ok
| Err (error : Value).

Definition log (ev : Event) (st : State) : State :=
  mkState (tasks st) (shouldStop st) (trace st ++ [ev]).

Definition stop (st : State) : State :=
  mkState (tasks st) true (trace st).

(** The body of a task function, with the [context] of lines 79-92:
    [next] sets [isNextCalled] and awaits [executeTask(index + 1, value)];
    [finish] sets [this.shouldStop]. *)
Fixpoint run_script (executeNext : Value -> State -> option (Result * State))
    (s : Script) (isNextCalled : bool) (st : State) : option (Result * bool * State) :=
  match s with
  | Returns => Some (Ok, isNextCalled, st)
  | Throws error => Some (Err error, isNextCalled, st)
  | TryNext value k handler =>
      match executeNext (default VUndefined value) st with
      | Some (Ok, st) => run_script executeNext k true st
      | Some (Err error, st) => run_script executeNext (handler error) true st
      | None => None
      end
  | Finish k => run_script executeNext k isNextCalled (stop st)
  end.

(** [executeTask], lines 70-107. *)
Fixpoint executeTask (fuel : nat) (index : nat) (param : Value) (st : State)
  : option (Result * State) :=
  match fuel with
  | O => None
  | S fuel =>
      if (length (tasks st) <=? index)%nat || shouldStop st then Some (Ok, st)
      else
        match tasks st !! index with
        | None => Some (Ok, st)
        | Some fn =>
            match run_script (executeTask fuel (S index)) (fn param) false
                    (log (Started index param) st) with
            | Some (Err error, _, st) => Some (Err error, log (Threw index error) (stop st))
            | Some (Ok, isNextCalled, st) =>
                Some (Ok, log (Returned index isNextCalled)
                            (if isNextCalled then st else stop st))
            | None => None
            end
        end
  end.

(** [addTask], lines 56-61 and 140-145: a new object with one more task. *)
Definition addTask (this : State) (fn : TaskFn) : State :=
  mkState (tasks this ++ [fn]) (shouldStop this) (trace this).

(** [new Tasks()] *)
Definition new_Tasks : State := mkState [] false [].

(** [TasksWithTasks.invoke], lines 129-132. *)
Definition invoke (this : State) : option (Result * State) :=
  executeTask (S (length (tasks this))) 0 VUndefined
    (mkState (tasks this) false (trace this)).

Definition is_start (ev : Event) : bool :=
  match ev with
  | Started _ _ => true
  | _ => false
  end.

Definition is_throw (ev : Event) : bool :=
  match ev with
  | Threw _ _ => true
  | _ => false
  end.

(** The events after which the runner is stopped: a task returned without
    having called [next], or threw. *)
Definition halts (ev : Event) : bool :=
  match ev with
  | Returned _ false | Threw _ _ => true
  | _ => false
  end.

Definition quiet (l : list Event) : Prop :=
  Forall (fun ev => is_start ev = false) l.

(** No task starts after an event that halts. *)
Fixpoint well_halted (l : list Event) : Prop :=
  match l with
  | [] => True
  | ev :: l => (halts ev = true -> quiet l) /\ well_halted l
  end.

(** The state [st'] is reached from [st] with the events [new]: a stopped
    runner stays stopped and does nothing, a halt stops it, and nothing
    starts after a halt. *)
Definition leaves (st : State) (new : list Event) (st' : State) : Prop :=
  tasks st' = tasks st /\
  trace st' = trace st ++ new /\
  (shouldStop st = true -> new = [] /\ shouldStop st' = true) /\
  (Exists (fun ev => halts ev = true) new -> shouldStop st' = true) /\
  well_halted new.

(** No [try] around any [next]. *)
Fixpoint uncaught (s : Script) : Prop :=
  match s with
  | Returns | Throws _ => True
  | TryNext _ k handler => uncaught k /\ forall error, handler error = Throws error
  | Finish k => uncaught k
  end.

(** Two states of a runner that differ at most by what was recorded. *)
Definition alike (st1 st2 : State) : Prop :=
  tasks st1 = tasks st2 /\ shouldStop st1 = shouldStop st2.

(** [run] does to a state what it does to any state [alike]: it gives the
    same result and records the same events. *)
Definition uniform {A} (run : State -> option (A * State)) : Prop :=
  forall st1 st2 r st1',
    run st1 = Some (r, st1') -> alike st1 st2 ->
    exists st2' new,
      run st2 = Some (r, st2') /\ alike st1' st2' /\
      trace st1' = trace st1 ++ new /\ trace st2' = trace st2 ++ new.

(** [async ({ param, next }) => { await next(value(param)); }] *)
Definition forward (value : Value -> option Value) : TaskFn :=
  fun param => Next (value param) Returns.

(** What each task of a list of forwarding tasks receives, when the first
    one receives [param]. *)
Fixpoint received (values : list (Value -> option Value)) (param : Value) : list Value :=
  match values with
  | [] => []
  | value :: values => param :: received values (default VUndefined (value param))
  end.

(** The body never throws: it has no [throw] outside the handlers and its
    handlers do not throw either, as with [try { await next(); } catch {}]. *)
Fixpoint never_throws (s : Script) : Prop :=
  match s with
  | Returns => True
  | Throws _ => False
  | TryNext _ k handler => never_throws k /\ forall error, never_throws (handler error)
  | Finish k => never_throws k
  end.

End Tasks.

(** ** Concrete chains and task lists *)

Module Examples.
Import Chains.

(** [() => 10] *)
Definition return_10 : StepFn unit :=
  fun _ w => (Fulfils (VNumber 10) 0, w).

(** [(r) => r.r1 * 2] *)
Definition double_first : StepFn unit :=
  fun r w =>
    (match r "r1" with
     | VNumber n => Fulfils (VNumber (n * 2)) 0
     | _ => Fulfils VNaN 0
     end, w).

(** [(r) => r.r2 + 5] *)
Definition add_5_to_second : StepFn unit :=
  fun r w =>
    (match r "r2" with
     | VNumber n => Fulfils (VNumber (n + 5)) 0
     | _ => Fulfils VNaN 0
     end, w).

(** [() => { throw new Error('boom') }] in an async function *)
Definition always_boom : StepFn unit :=
  fun _ w => (Rejects (VError (new_Error "boom")) 0, w).

(** [{ retry: 2, retryWhen: 'network' }] *)
Definition retry_2_when_network : ChainOptions :=
  mkChainOptions None (Some 2) (Some (RwString "network")) None None.

(** [{ retry: 2, retryDelay: 10 }] *)
Definition retry_2_delay_10 : ChainOptions :=
  mkChainOptions None (Some 2) None (Some 10) None.

(** [{ withoutThrow: true }] *)
Definition without_throw : ChainOptions :=
  mkChainOptions (Some true) None None None None.

(** [() => new Promise((resolve) => setTimeout(() => resolve('done'), 500))] *)
Definition done_after_500 : StepFn unit :=
  fun _ w => (Fulfils (VString "done") 500, w).

(** [{ timeout: 100 }] *)
Definition timeout_100 : ChainOptions :=
  mkChainOptions None None None None (Some 100).

(** [async ({ next }) => { await next(); }] *)
Definition pass_nothing : Tasks.TaskFn :=
  fun _ => Tasks.Next None Tasks.Returns.

(** [async () => {}] *)
Definition do_nothing : Tasks.TaskFn :=
  fun _ => Tasks.Returns.

(** [async () => { throw new Error('boom'); }] *)
Definition throw_boom : Tasks.TaskFn :=
  fun _ => Tasks.Throws (VError (new_Error "boom")).

(** [() => { calls++; return 1 }] *)
Definition count_calls : StepFn nat :=
  fun _ calls => (Fulfils (VNumber 1) 0, S calls).

(** [() => new Promise(() => {})]: a promise that never settles *)
Definition never_settles : StepFn unit :=
  fun _ w => (Never, w).

(** [{ retry: -1 }] *)
Definition retry_minus_1 : ChainOptions :=
  mkChainOptions None (Some (-1)) None None None.

(** [async ({ next }) => { try { await next(); } catch {} }] *)
Definition catch_all : Tasks.TaskFn :=
  fun _ => Tasks.TryNext None Tasks.Returns (fun _ => Tasks.Returns).

End Examples.

(** * Properties of the JavaScript primitives *)

Module JSFacts.

Lemma prefix_app (p s : string) :
  String.prefix p s = true <-> exists t, s = p +:+ t.
Proof.
  revert s. induction p as [|a p IH]; intros s; simpl.
  - split; [intros _; exists s; reflexivity|]. by destruct s.
  - destruct s as [|b s]; simpl.
    + split; [discriminate|]. intros [t Ht]. discriminate.
    + destruct (Ascii.ascii_dec a b) as [->|Hne].
      * rewrite IH. split; intros [t Ht]; exists t; [by rewrite Ht|].
        by inversion Ht.
      * split; [discriminate|]. intros [t Ht]. inversion Ht. congruence.
Qed.

(** [includes] is the substring test. *)
Lemma includes_substring (haystack needle : string) :
  includes haystack needle = true <->
  exists pre post, haystack = pre +:+ needle +:+ post.
Proof.
  induction haystack as [|a h IH]; cbn [includes].
  - rewrite orb_false_r, prefix_app. split.
    + intros [t Ht]. exists "", t. exact Ht.
    + intros [pre [post H]]. destruct pre; [by exists post|discriminate].
  - rewrite orb_true_iff, prefix_app, IH. split.
    + intros [[t Ht]|[pre [post H]]].
      * exists "", t. exact Ht.
      * exists (String a pre), post. simpl. by rewrite H.
    + intros [pre [post H]]. destruct pre as [|b pre]; simpl in H.
      * left. by exists post.
      * right. inversion H. by exists pre, post.
Qed.

Lemma instanceof_new_Error (message : string) (c : Ctor) :
  instanceof (new_Error message) c = Ctor_eqb c CError.
Proof. unfold instanceof. simpl. by rewrite orb_false_r. Qed.

(** *** Classes of errors *)

Lemma Ctor_eqb_eq (a b : Ctor) : Ctor_eqb a b = true <-> a = b.
Proof.
  revert b. induction a as [| |n p IH]; intros [| |m q]; cbn [Ctor_eqb];
    try (split; [done|congruence]); try done.
  rewrite andb_true_iff, bool_decide_eq_true, IH.
  split; [intros [-> ->]; done|intros [= -> ->]; done].
Qed.

(** [instanceof] follows the prototype chain of the class of the error. *)
Lemma instanceof_elem_of (e : Error) (c : Ctor) :
  instanceof e c = true <-> c ∈ prototype_chain (err_ctor e).
Proof.
  unfold instanceof. rewrite existsb_exists. split.
  - intros (x & Hin & Heq). apply Ctor_eqb_eq in Heq. subst. by apply list_elem_of_In.
  - intros Hin. exists c. split; [by apply list_elem_of_In|by apply Ctor_eqb_eq].
Qed.

Lemma prototype_chain_self (c : Ctor) : c ∈ prototype_chain c.
Proof. destruct c; cbn [prototype_chain]; apply list_elem_of_here. Qed.

Lemma prototype_chain_Error (c : Ctor) : CError ∈ prototype_chain c.
Proof.
  induction c; cbn [prototype_chain].
  - apply list_elem_of_here.
  - apply list_elem_of_further, list_elem_of_here.
  - by apply list_elem_of_further.
Qed.

Lemma prototype_chain_trans (a b c : Ctor) :
  b ∈ prototype_chain a -> c ∈ prototype_chain b -> c ∈ prototype_chain a.
Proof.
  induction a as [| |n p IH]; cbn [prototype_chain].
  - intros Hb. by apply list_elem_of_singleton in Hb as ->.
  - intros Hb Hc. apply elem_of_cons in Hb as [->|Hb]; [done|].
    apply list_elem_of_singleton in Hb as ->. cbn [prototype_chain] in Hc.
    apply list_elem_of_singleton in Hc as ->.
    apply list_elem_of_further, list_elem_of_here.
  - intros Hb Hc. apply elem_of_cons in Hb as [->|Hb]; [done|].
    apply list_elem_of_further. by apply IH.
Qed.

(** A class is no subclass of a class that extends it. *)
Lemma prototype_chain_strict (c : Ctor) : forall name, CUser name c ∉ prototype_chain c.
Proof.
  induction c as [| |m p IH]; intros name; cbn [prototype_chain].
  - intros Hin. by apply list_elem_of_singleton in Hin.
  - intros Hin. apply elem_of_cons in Hin as [Heq|Hin]; [done|].
    by apply list_elem_of_singleton in Hin.
  - intros Hin. apply elem_of_cons in Hin as [Heq|Hin].
    + injection Heq as -> Hp. apply (IH m). rewrite <- Hp at 2.
      apply prototype_chain_self.
    + apply (IH m). eapply prototype_chain_trans; [exact Hin|].
      cbn [prototype_chain]. apply list_elem_of_further, prototype_chain_self.
Qed.

End JSFacts.

(** * Properties of the Chains engine *)

Module ChainsFacts.
Import Chains.

Section Machine.

Context {World : Type}.
Implicit Types (t : Task World) (s : Store World) (pt : Point) (c : Completion).

(** *** Every task run terminates within its budget *)

Lemma step_budget t pt s s' pt' :
  step t pt s = (s', Goto pt') ->
  (budget (p_maxRetries (t_options t)) pt' < budget (p_maxRetries (t_options t)) pt)%nat.
Proof.
  unfold step. intros H.
  destruct pt as [|a|a r|a x|a]; simpl in *.
  - destruct (t_owner t) as [i|p i]; [|destruct (promises s !! p) as [[]|]];
      inversion H; subst; simpl; lia.
  - destruct (Z.leb_spec a (p_maxRetries (t_options t))); [|discriminate].
    destruct (call t a (write_back t s)) as [r s1].
    destruct r; inversion H; subst; simpl; lia.
  - destruct (race _ _ r); inversion H; subst; simpl; lia.
  - destruct (Z.ltb_spec a (p_maxRetries (t_options t))); simpl in H; [|discriminate].
    destruct (shouldRetry _ _); [|discriminate].
    destruct (0 <? _); inversion H; subst; simpl; lia.
  - inversion H; subst; simpl; lia.
Qed.

Lemma run_fuel sync t n : forall m pt s,
  (budget (p_maxRetries (t_options t)) pt <= n)%nat ->
  (budget (p_maxRetries (t_options t)) pt <= m)%nat ->
  run sync n t pt s = run sync m t pt s /\ is_Some (run sync n t pt s).
Proof.
  induction n as [|n IH]; intros m pt s Hn Hm.
  { destruct pt; simpl in Hn; lia. }
  destruct m as [|m]; [destruct pt; simpl in Hm; lia|].
  simpl. destruct (step t pt s) as [s' [pt'| c |]] eqn:Hstep; eauto.
  destruct (sync && is_await pt'); eauto.
  apply step_budget in Hstep. apply IH; lia.
Qed.

(** A task run never runs out of fuel. *)
Lemma exec_total sync t pt s : is_Some (exec sync t pt s).
Proof. unfold exec. eapply run_fuel; reflexivity. Qed.

Lemma exec_unfold sync t pt s :
  exec sync t pt s =
  match step t pt s with
  | (s', Goto pt') =>
      if sync && is_await pt' then Some (s', Parked pt') else exec sync t pt' s'
  | (s', Settled c) => Some (s', Done c)
  | (s', Blocked) => Some (s', Parked pt)
  end.
Proof.
  unfold exec.
  destruct (budget (p_maxRetries (t_options t)) pt) as [|n] eqn:Hb.
  { destruct pt; simpl in Hb; lia. }
  simpl. destruct (step t pt s) as [s' [pt'| c |]] eqn:Hstep; try reflexivity.
  destruct (sync && is_await pt'); [reflexivity|].
  apply step_budget in Hstep. eapply run_fuel; lia.
Qed.

(** An invariant of the transitions holds where the run ends. *)
Lemma run_invariant (I : Point -> Store World -> Prop) sync t n :
  (forall pt s pt' s', I pt s -> step t pt s = (s', Goto pt') -> I pt' s') ->
  forall pt s s' st, I pt s -> run sync n t pt s = Some (s', st) ->
  exists pt1 s1, I pt1 s1 /\
    match st with
    | Done c => step t pt1 s1 = (s', Settled c)
    | Parked p =>
        (step t pt1 s1 = (s', Blocked) /\ p = pt1) \/
        (step t pt1 s1 = (s', Goto p) /\ sync = true /\ is_await p = true)
    end.
Proof.
  intros Hpres. induction n as [|n IH]; intros pt s s' st HI Hrun; [discriminate|].
  simpl in Hrun. destruct (step t pt s) as [s1 [pt1| c |]] eqn:Hstep.
  - destruct (sync && is_await pt1) eqn:Hs.
    + inversion Hrun; subst. apply andb_true_iff in Hs as [-> ->].
      exists pt, s. split; [done|]. right. done.
    + eapply IH; [|exact Hrun]. eauto.
  - inversion Hrun; subst. exists pt, s. done.
  - inversion Hrun; subst. exists pt, s. split; [done|]. left. done.
Qed.

(** *** The run of a task, point by point *)

Lemma exec_await_previous sync t s p i :
  t_owner t = OfImpl p i ->
  exec sync t AwaitPrevious s =
  match promises s !! p with
  | Some (Return _) => exec sync t (LoopHead 0) s
  | Some (Throw error) => Some (s, Done (Throw error))
  | None => Some (s, Parked AwaitPrevious)
  end.
Proof.
  intros Ho. rewrite exec_unfold. cbn [step]. rewrite Ho.
  destruct (promises s !! p) as [[]|]; try reflexivity.
  by rewrite andb_false_r.
Qed.

Lemma exec_loop_head sync t a s :
  a <= p_maxRetries (t_options t) ->
  exec sync t (LoopHead a) s =
  match call t a (write_back t s) with
  | (ThrowsSync error, s) => exec sync t (Caught a error) s
  | (r, s) =>
      if sync then Some (s, Parked (AwaitStep a r)) else exec sync t (AwaitStep a r) s
  end.
Proof.
  intros Ha. rewrite exec_unfold. cbn [step].
  destruct (Z.leb_spec a (p_maxRetries (t_options t))); [|lia].
  destruct (call t a (write_back t s)) as [r s1].
  destruct r; cbn [is_await]; rewrite ?andb_true_r, ?andb_false_r; reflexivity.
Qed.

Lemma exec_await_step sync t a r s :
  exec sync t (AwaitStep a r) s =
  match race (p_timeout (t_options t)) (timeout_step (t_owner t)) r with
  | Won result => Some (s, Done (wrapResult result None (p_withoutThrow (t_options t))))
  | Lost error => exec sync t (Caught a error) s
  | Stuck => Some (s, Parked (AwaitStep a r))
  end.
Proof.
  rewrite exec_unfold. cbn [step].
  destruct (race _ _ r); try reflexivity. by rewrite andb_false_r.
Qed.

Lemma exec_caught sync t a x s :
  exec sync t (Caught a x) s =
  if (a <? p_maxRetries (t_options t)) &&
     shouldRetry (normalizeError x) (p_retryWhen (t_options t)) then
    if 0 <? p_retryDelay (t_options t) then
      let s := log (EvSleep (t_promise t) (p_retryDelay (t_options t))) s in
      if sync then Some (s, Parked (AwaitDelay (a + 1)))
      else exec sync t (AwaitDelay (a + 1)) s
    else exec sync t (LoopHead (a + 1)) s
  else Some (s, Done (wrapResult VUndefined (Some (normalizeError x))
                        (p_withoutThrow (t_options t)))).
Proof.
  rewrite exec_unfold. cbn [step]. cbv zeta.
  destruct (_ && _); [|reflexivity].
  destruct (0 <? _); cbn [is_await]; rewrite ?andb_true_r, ?andb_false_r; reflexivity.
Qed.

Lemma exec_await_delay sync t a s :
  exec sync t (AwaitDelay a) s = exec sync t (LoopHead a) s.
Proof. rewrite exec_unfold. cbn [step is_await]. by rewrite andb_false_r. Qed.

Lemma call_eq t a s :
  call t a s =
  let view :=
    match t_owner t with
    | OfImpl _ _ => proxy_get (history s)
    | OfInit _ => init_proxy_get (history s)
    end in
  (fst (t_fn t view (world s)),
   mkStore (snd (t_fn t view (world s))) (history s) (promises s)
     (trace s ++ [EvCall (t_promise t) a (history s) (fst (t_fn t view (world s)))])).
Proof. unfold call. cbv zeta. by destruct (t_fn t _ (world s)). Qed.

Lemma wrapResult_success v wt : exists r, wrapResult v None wt = Return r.
Proof. destruct wt; simpl; eauto. Qed.

Lemma race_in_time timeout step v ms :
  match timeout with
  | Some timeout => ms <= Z.max 0 timeout
  | None => True
  end ->
  race timeout step (Fulfils v ms) = Won v.
Proof.
  destruct timeout as [T|]; simpl; [|done].
  intros H. by destruct (Z.leb_spec ms (Z.max 0 T)); [|lia].
Qed.

Lemma later_task_succeeds n fn o prev idx (s : Store World) rprev :
  succeeds (fn, o) ->
  promises s !! prev = Some (Return rprev) ->
  0 < idx ->
  let t := mkTask n fn (parseChainOptions o) (OfImpl prev idx) AwaitPrevious in
  let h := <[key idx := rprev]> (history s) in
  exists v ms,
    fst (fn (proxy_get h) (world s)) = Fulfils v ms /\
    advance_store false t s =
    (settle t (wrapResult v None (p_withoutThrow (parseChainOptions o)))
       (mkStore (snd (fn (proxy_get h) (world s))) h (promises s)
          (trace s ++ [EvWrite n (key idx) rprev; EvCall n 0 h (Fulfils v ms)])),
     None).
Proof.
  intros [HM Hfn] Hprev Hidx t h. cbn [fst snd] in HM, Hfn.
  destruct (Hfn (proxy_get h) (world s)) as (v & ms & Hcall & Htime).
  exists v, ms. split; [exact Hcall|].
  unfold advance_store. cbn [t_point t].
  rewrite (exec_await_previous _ _ _ prev idx), Hprev by reflexivity.
  rewrite exec_loop_head by exact HM.
  rewrite call_eq. cbv zeta.
  unfold write_back. cbn [t_owner t t_fn t_promise]. rewrite Hprev.
  destruct (Z.ltb_spec 0 idx); [|lia].
  cbn [history world log promises trace]. fold h. rewrite Hcall.
  rewrite exec_await_step. cbn [t_options]. rewrite race_in_time by exact Htime.
  by rewrite <- app_assoc.
Qed.

Lemma first_task_succeeds seed first (w : World) :
  succeeds first ->
  let t := first_task seed first in
  let s := init_store seed w in
  exists v ms,
    fst (fst first (init_proxy_get (history s)) w) = Fulfils v ms /\
    history s = entries seed [] /\
    let s1 := mkStore (snd (fst first (init_proxy_get (history s)) w)) (history s) ∅
                [EvCall O 0 (history s) (Fulfils v ms)] in
    advance_store true t s = (s1, Some (at_point t (AwaitStep 0 (Fulfils v ms)))) /\
    advance_store false (at_point t (AwaitStep 0 (Fulfils v ms))) s1 =
      (settle t (wrapResult v None (p_withoutThrow (t_options t))) s1, None).
Proof.
  intros [HM Hfn] t s.
  destruct (Hfn (init_proxy_get (history s)) w) as (v & ms & Hcall & Htime).
  exists v, ms. split; [exact Hcall|].
  assert (Hw : world s = w) by (unfold s, init_store; by destruct seed).
  assert (Hp : promises s = ∅) by (unfold s, init_store; by destruct seed).
  assert (Ht : trace s = []) by (unfold s, init_store; by destruct seed).
  split; [unfold s, init_store, entries; by destruct seed|].
  cbv zeta. split.
  - unfold advance_store. cbn [t_point t first_task].
    rewrite exec_loop_head by exact HM.
    rewrite call_eq. cbv zeta. unfold write_back. cbn [t_owner t_fn t_promise t first_task].
    rewrite Hw, Hp, Ht, Hcall. reflexivity.
  - unfold advance_store. cbn [t_point at_point].
    rewrite exec_await_step. cbn [t_options at_point t first_task].
    by rewrite race_in_time by exact Htime.
Qed.

(** *** Positions of the history *)

Lemma key_inj (a b : Z) : key a = key b -> a = b.
Proof. unfold key. intros H. apply (inj pretty). by inversion H. Qed.

Lemma positions_lookup_lt l : forall pos p, p < pos -> positions pos l !! key p = None.
Proof.
  induction l as [|v l IH]; intros pos p Hp; simpl; [apply lookup_empty|].
  rewrite lookup_insert_ne; [apply IH; lia|]. intros H%key_inj. lia.
Qed.

Lemma positions_snoc l : forall pos v,
  positions pos (l ++ [v]) = <[key (pos + Z.of_nat (length l)) := v]> (positions pos l).
Proof.
  induction l as [|x l IH]; intros pos v; simpl.
  - by rewrite Z.add_0_r.
  - rewrite IH, insert_insert_ne.
    + f_equal. f_equal. lia.
    + intros H%key_inj. lia.
Qed.

Lemma positions_lookup l : forall pos (i : nat),
  positions pos l !! key (pos + Z.of_nat i) = l !! i.
Proof.
  induction l as [|v l IH]; intros pos i;
    [cbn [positions]; by rewrite lookup_empty, lookup_nil|].
  cbn [positions]. destruct i as [|i].
  - by rewrite Z.add_0_r, lookup_insert_eq.
  - rewrite lookup_insert_ne; [|intros H%key_inj; lia].
    replace (pos + Z.of_nat (S i)) with (pos + 1 + Z.of_nat i) by lia.
    apply IH.
Qed.

(** Both proxies read position [1 + i] of the history as the value
    recorded there, and as [undefined] when nothing is. *)
Lemma proxies_read_positions (l : list Value) (i : nat) :
  proxy_get (positions 1 l) (key (1 + Z.of_nat i)) = default VUndefined (l !! i) /\
  init_proxy_get (positions 1 l) (key (1 + Z.of_nat i)) = default VUndefined (l !! i).
Proof.
  unfold proxy_get, init_proxy_get. rewrite positions_lookup.
  assert (startsWith_r (key (1 + Z.of_nat i)) = true) as ->.
  { unfold startsWith_r, key. simpl. by destruct (pretty _). }
  by destruct (l !! i).
Qed.

(** *** The structure of a chain *)

Lemma chain_all_spec steps : forall (b : ChainsImpl) (e : Engine World),
  chain_all b steps e =
  (mkChainsImpl (if steps is [] then asyncTask b else next_promise e + length steps - 1)%nat
     (index b + Z.of_nat (length steps)),
   mkEngine (store e)
     (tasks e ++ later_tasks (next_promise e) (asyncTask b) (index b) steps)
     (next_promise e + length steps)).
Proof.
  induction steps as [|[fn o] steps IH]; intros b e; simpl.
  - destruct b, e; simpl. rewrite app_nil_r, Z.add_0_r, Nat.add_0_r. reflexivity.
  - rewrite IH. simpl. f_equal.
    + f_equal; [destruct steps; simpl; lia | lia].
    + f_equal; [by rewrite <- app_assoc | lia].
Qed.

Lemma event_loop_store (e : Engine World) :
  store (event_loop e) = run_all (tasks e) (store e).
Proof.
  unfold event_loop, run_all.
  generalize (@nil (Task World)) at 1. generalize (store e). generalize (next_promise e).
  induction (tasks e) as [|t ts IH]; intros n s acc; simpl; [reflexivity|].
  unfold advance at 2. simpl. destruct (advance_store false t s) as [s' parked]. simpl.
  apply IH.
Qed.

Lemma chains_final seed first rest (w : World) :
  exists e, chains seed first rest w =
              (promises (final_store seed first rest w) !! length rest, e) /\
            store e = final_store seed first rest w.
Proof.
  unfold chains, build.
  assert (new_Chains seed w =
          (mkChainsInitImpl (seed_index seed), mkEngine (init_store seed w) [] O)) as ->
    by (destruct seed; reflexivity).
  unfold ChainsInitImpl_chain, advance. simpl.
  fold (first_task seed first).
  destruct (advance_store true (first_task seed first) (init_store seed w))
    as [s1 parked] eqn:Hfirst.
  rewrite chain_all_spec. simpl. unfold ChainsImpl_invoke. simpl.
  assert (Hstore : forall e : Engine World,
            tasks e = option_list parked ++ later_tasks 1 0 (seed_index seed + 1) rest ->
            store e = s1 ->
            store (event_loop e) = final_store seed first rest w).
  { intros e Ht Hs. rewrite event_loop_store, Ht, Hs.
    unfold final_store, built_tasks, built_store. by rewrite Hfirst. }
  match goal with
  | |- context [event_loop ?E] => pose proof (Hstore E eq_refl eq_refl) as HE
  end.
  eexists. split; [|exact HE].
  rewrite HE. f_equal. f_equal. destruct rest; simpl; lia.
Qed.

(** *** Chains whose steps all succeed *)

Lemma run_all_cons t ts s :
  run_all (t :: ts) s = run_all ts (fst (advance_store false t s)).
Proof. reflexivity. Qed.

Lemma calls_app (tr1 tr2 : list Event) : calls (tr1 ++ tr2) = calls tr1 ++ calls tr2.
Proof. unfold calls. apply omap_app. Qed.

Lemma last_cons_default {A} (l : list A) : forall x d, List.last (x :: l) d = List.last l x.
Proof.
  induction l as [|y l IH]; intros x d; [reflexivity|].
  change (List.last (x :: y :: l) d) with (List.last (y :: l) d).
  rewrite !IH. reflexivity.
Qed.

Lemma last_cons_Some {A} (x : A) (l : list A) : last (x :: l) = Some (List.last l x).
Proof.
  revert x. induction l as [|y l IH]; intros x; [reflexivity|].
  rewrite last_cons, IH, last_cons_default. reflexivity.
Qed.

Lemma later_succeed rest : forall n prev idx (s : Store World) l rprev,
  Forall succeeds rest ->
  promises s !! prev = Some (Return rprev) ->
  history s = positions 1 l ->
  idx = 1 + Z.of_nat (length l) ->
  exists rs ss,
    Forall3 fulfilled rest ss rs /\
    promises (run_all (later_tasks n prev idx rest) s)
      !! (if rest is [] then prev else n + length rest - 1)%nat
      = Some (Return (List.last rs rprev)) /\
    calls (trace (run_all (later_tasks n prev idx rest) s)) =
    calls (trace s) ++
    imap (fun j r => ((n + j)%nat, positions 1 (l ++ take (S j) (rprev :: rs)), r)) ss.
Proof.
  induction rest as [|[fn o] rest IH]; intros n prev idx s l rprev Hall Hprev Hh Hidx.
  { exists [], []. simpl. split; [constructor|]. split; [done|]. by rewrite app_nil_r. }
  apply Forall_cons in Hall as [Hs Hall].
  destruct (later_task_succeeds n fn o prev idx s rprev Hs Hprev ltac:(lia))
    as (v & ms & Hcall & Hadv).
  destruct (wrapResult_success v (p_withoutThrow (parseChainOptions o))) as [r Hr].
  cbn [later_tasks]. rewrite run_all_cons, Hadv. cbn [fst].
  rewrite Hr in *.
  match goal with |- context [run_all _ ?S] => set (s2 := S) end.
  destruct (IH (S n) n (idx + 1) s2 (l ++ [rprev]) r Hall) as (rs & ss & HF & Hlast & Hcalls).
  { unfold s2, settle. cbn [promises log t_promise]. apply lookup_insert_eq. }
  { unfold s2, settle. cbn [history log]. rewrite Hh, positions_snoc. do 2 f_equal. lia. }
  { rewrite length_app. simpl. lia. }
  exists (r :: rs), (Fulfils v ms :: ss). split; [|split].
  - constructor; [|exact HF]. exists v, ms. done.
  - rewrite last_cons_default, <- Hlast. f_equal.
    destruct rest; simpl; lia.
  - rewrite Hcalls. unfold s2 at 1, settle. cbn [trace log].
    rewrite !calls_app. simpl. rewrite <- !app_assoc. f_equal. simpl.
    f_equal.
    + by rewrite Nat.add_0_r, Hh, positions_snoc, Hidx.
    + apply imap_ext. intros j x _. simpl.
      rewrite <- app_assoc, Nat.add_succ_r. reflexivity.
Qed.

(** *** Steps whose attempts all fail *)

Lemma schedule_app (tr1 tr2 : list Event) :
  schedule (tr1 ++ tr2) = schedule tr1 ++ schedule tr2.
Proof. unfold schedule. apply omap_app. Qed.

Lemma write_back_trace t s :
  exists evs, trace (write_back t s) = trace s ++ evs /\ schedule evs = [].
Proof.
  unfold write_back. destruct (t_owner t) as [i|p i]; [by exists []; rewrite app_nil_r|].
  destruct (0 <? i); [|by exists []; rewrite app_nil_r].
  destruct (promises s !! p) as [[v|e]|]; try (by exists []; rewrite app_nil_r).
  by eexists [_].
Qed.

Lemma attempts_with_retries_S delay n :
  attempts_with_retries delay (S n) =
  Attempt :: (if 0 <? delay then [Pause] else []) ++ attempts_with_retries delay n.
Proof.
  unfold attempts_with_retries. cbn [replicate concat]. f_equal.
  by rewrite <- app_assoc.
Qed.

Lemma failing_attempt t a s :
  always_fails t ->
  a <= p_maxRetries (t_options t) ->
  exists x s1 evs,
    exec false t (LoopHead a) s = exec false t (Caught a x) s1 /\
    trace s1 = trace s ++ evs /\
    schedule evs = [Attempt].
Proof.
  intros Hfail HaM. rewrite exec_loop_head by exact HaM.
  rewrite call_eq. cbv zeta.
  destruct (write_back_trace t s) as (wb & Hwb & Hwbs).
  match goal with |- context [t_fn t ?v ?w] =>
    destruct (Hfail v w) as [x Hx]; set (r := fst (t_fn t v w)) in *;
    set (w' := snd (t_fn t v w)) end.
  match goal with |- context [mkStore w' ?h ?p ?tr] => set (s1 := mkStore w' h p tr) end.
  exists x, s1, (wb ++ [EvCall (t_promise t) a (history (write_back t s)) r]).
  split; [|split].
  - unfold failure in Hx. destruct r; try (inversion Hx; subst; reflexivity);
      rewrite exec_await_step;
      destruct (race _ _ _); try discriminate; by inversion Hx.
  - unfold s1. cbn [trace]. by rewrite Hwb, <- app_assoc.
  - by rewrite schedule_app, Hwbs.
Qed.

Lemma attempts_from t (k : nat) : forall a s,
  always_fails t ->
  k = Z.to_nat (p_maxRetries (t_options t) - a) ->
  a <= p_maxRetries (t_options t) ->
  exists s' error n evs,
    exec false t (LoopHead a) s =
      Some (s', Done (wrapResult VUndefined (Some error) (p_withoutThrow (t_options t)))) /\
    trace s' = trace s ++ evs /\
    schedule evs = attempts_with_retries (p_retryDelay (t_options t)) n /\
    (n <= k)%nat /\
    ((forall e, shouldRetry e (p_retryWhen (t_options t)) = true) -> n = k).
Proof.
  induction k as [|k IH]; intros a s Hfail Hk HaM.
  all: destruct (failing_attempt t a s Hfail HaM) as (x & s1 & ev1 & -> & Htr1 & Hs1).
  all: rewrite exec_caught.
  - (* no retry left *)
    destruct (Z.ltb_spec a (p_maxRetries (t_options t))); [lia|]. cbn [andb].
    by exists s1, (normalizeError x), O, ev1.
  - destruct (Z.ltb_spec a (p_maxRetries (t_options t))); [|lia]. cbn [andb].
    destruct (shouldRetry (normalizeError x) (p_retryWhen (t_options t))) eqn:Hsr.
    + (* retried *)
      cbv zeta.
      set (s2 := if 0 <? p_retryDelay (t_options t)
                 then log (EvSleep (t_promise t) (p_retryDelay (t_options t))) s1 else s1).
      destruct (IH (a + 1) s2 Hfail ltac:(lia) ltac:(lia))
        as (s' & error & n & evs & Hexec & Htr & Hsch & Hn & Hall).
      exists s', error, (S n),
        (ev1 ++ (if 0 <? p_retryDelay (t_options t)
                 then [EvSleep (t_promise t) (p_retryDelay (t_options t))] else []) ++ evs).
      split; [|split; [|split; [|split]]].
      * unfold s2 in Hexec. destruct (0 <? p_retryDelay (t_options t)).
        -- by rewrite exec_await_delay.
        -- exact Hexec.
      * rewrite Htr. unfold s2.
        destruct (0 <? p_retryDelay (t_options t)); cbn [log trace];
          rewrite Htr1, <- ?app_assoc; reflexivity.
      * rewrite !schedule_app, Hs1, Hsch, attempts_with_retries_S.
        by destruct (0 <? p_retryDelay (t_options t)).
      * lia.
      * intros Hany. f_equal. by apply Hall.
    + (* the failure does not match retryWhen *)
      exists s1, (normalizeError x), O, ev1.
      split; [|split; [|split; [|split]]]; try done.
      * lia.
      * intros Hany. by rewrite Hany in Hsr.
Qed.

(** *** What a run changes in the heap *)

Lemma replay_app (tr1 tr2 : list Event) h :
  replay (tr1 ++ tr2) h = replay tr2 (replay tr1 h).
Proof. unfold replay. apply fold_left_app. Qed.

Lemma reaches_refl t s : reaches t s s.
Proof. split; [done|]. exists []. by rewrite app_nil_r. Qed.

Lemma reaches_trans t s1 s2 s3 : reaches t s1 s2 -> reaches t s2 s3 -> reaches t s1 s3.
Proof.
  intros [Hp1 (e1 & Ht1 & Hh1 & Ho1)] [Hp2 (e2 & Ht2 & Hh2 & Ho2)].
  split; [congruence|]. exists (e1 ++ e2). split; [|split].
  - by rewrite Ht2, Ht1, app_assoc.
  - by rewrite Hh2, Hh1, replay_app.
  - apply Forall_app. split; [done|].
    eapply Forall_impl; [exact Ho2|]. intros ev [Hev Hw]. split; [done|].
    destruct ev; try done. by rewrite <- Hp1.
Qed.

Lemma write_back_reaches t s : reaches t s (write_back t s).
Proof.
  unfold write_back. destruct (t_owner t) as [i|p i] eqn:Ho; [apply reaches_refl|].
  destruct (Z.ltb_spec 0 i); [|apply reaches_refl].
  destruct (promises s !! p) as [[v|e]|] eqn:Hp; try apply reaches_refl.
  split; [done|]. eexists [_]. split; [done|]. split; [done|].
  constructor; [|constructor]. split; [done|]. by exists p, i.
Qed.

Lemma call_reaches t a s : reaches t s (snd (call t a s)).
Proof.
  rewrite call_eq. cbv zeta. cbn [snd]. split; [done|].
  eexists [_]. split; [done|]. split; [done|]. by repeat constructor.
Qed.

Lemma step_reaches t pt s s' nx : step t pt s = (s', nx) -> reaches t s s'.
Proof.
  unfold step. intros H. destruct pt as [|a|a r|a x|a].
  - destruct (t_owner t) as [i|p i]; [|destruct (promises s !! p) as [[]|]];
      inversion H; subst; apply reaches_refl.
  - destruct (a <=? p_maxRetries (t_options t)).
    + pose proof (call_reaches t a (write_back t s)) as Hc.
      destruct (call t a (write_back t s)) as [r s1]. cbn [snd] in Hc.
      assert (s' = s1) as -> by (destruct r; by inversion H).
      eapply reaches_trans; [apply write_back_reaches|exact Hc].
    + inversion H; subst. apply reaches_refl.
  - destruct (race _ _ r); inversion H; subst; apply reaches_refl.
  - cbv zeta in H. destruct (_ && _).
    + destruct (0 <? _); inversion H; subst; [|apply reaches_refl].
      split; [done|]. eexists [_]. split; [done|]. split; [done|].
      by repeat constructor.
    + inversion H; subst. apply reaches_refl.
  - inversion H; subst. apply reaches_refl.
Qed.

Lemma exec_reaches sync t pt s s' st :
  exec sync t pt s = Some (s', st) -> reaches t s s'.
Proof.
  intros Hrun. unfold exec in Hrun.
  eapply (run_invariant (fun _ s1 => reaches t s s1)) in Hrun as (pt1 & s1 & HI & Hlast).
  - destruct st as [p|c].
    + destruct Hlast as [[Hs _]|[Hs _]];
        (eapply reaches_trans; [exact HI|by eapply step_reaches]).
    + eapply reaches_trans; [exact HI|by eapply step_reaches].
  - intros pt0 s0 pt' s0' HI Hs. eapply reaches_trans; [exact HI|by eapply step_reaches].
  - apply reaches_refl.
Qed.

(** *** Suspending a task and resuming it *)

Lemma step_blocked t pt s s' : step t pt s = (s', Blocked) -> s' = s.
Proof.
  unfold step. intros H. destruct pt as [|a|a r|a x|a].
  - destruct (t_owner t) as [i|p i]; [|destruct (promises s !! p) as [[]|]];
      by inversion H.
  - destruct (a <=? p_maxRetries (t_options t)); [|by inversion H].
    destruct (call t a (write_back t s)) as [r s1]. by destruct r.
  - destruct (race _ _ r); by inversion H.
  - cbv zeta in H. destruct (_ && _); [|by inversion H].
    by destruct (0 <? _).
  - by inversion H.
Qed.

Lemma exec_at_point sync t p pt s : exec sync (at_point t p) pt s = exec sync t pt s.
Proof.
  unfold exec. cbn [at_point t_options].
  generalize (budget (p_maxRetries (t_options t)) pt). intros n. revert pt s.
  induction n as [|n IH]; intros pt s; [reflexivity|].
  cbn [run]. change (step (at_point t p) pt s) with (step t pt s).
  destruct (step t pt s) as [s' [pt'|c|]]; try reflexivity.
  by rewrite IH.
Qed.

Lemma exec_resume t (n : nat) : forall pt s,
  (budget (p_maxRetries (t_options t)) pt <= n)%nat ->
  exec false t pt s =
  match exec true t pt s with
  | Some (s1, Parked p) => exec false t p s1
  | r => r
  end.
Proof.
  induction n as [|n IH]; intros pt s Hn; [destruct pt; simpl in Hn; lia|].
  rewrite (exec_unfold true), (exec_unfold false).
  destruct (step t pt s) as [s' [pt'|c|]] eqn:Hstep; try reflexivity.
  - rewrite !andb_false_l, andb_true_l.
    destruct (is_await pt'); [reflexivity|].
    apply IH. apply step_budget in Hstep. lia.
  - pose proof (step_blocked _ _ _ _ Hstep) as ->.
    by rewrite exec_unfold, Hstep.
Qed.

Lemma run_all_app (l1 l2 : list (Task World)) s :
  run_all (l1 ++ l2) s = run_all l2 (run_all l1 s).
Proof. unfold run_all. apply fold_left_app. Qed.

(** Running the first task until its first [await] and resuming it later
    leaves what running it in one go leaves. *)
Lemma advance_resume t ts s :
  run_all (option_list (snd (advance_store true t s)) ++ ts) (fst (advance_store true t s))
  = run_all (t :: ts) s.
Proof.
  rewrite run_all_cons. unfold advance_store at 1 2 3.
  rewrite (exec_resume t _ (t_point t) s (Nat.le_refl _)).
  destruct (exec true t (t_point t) s) as [[s1 [p|c]]|] eqn:Hsync; cbn [fst snd].
  - change (option_list (Some ?x) ++ ?l) with (x :: l).
    rewrite run_all_cons. f_equal. unfold advance_store. cbn [t_point at_point].
    rewrite exec_at_point.
    destruct (exec_total false t p s1) as [[s2 st] Hsome]. rewrite Hsome.
    by destruct st.
  - reflexivity.
  - by destruct (exec_total true t (t_point t) s) as [? Hsome]; rewrite Hsome in Hsync.
Qed.

Lemma final_store_all seed first rest (w : World) :
  final_store seed first rest w = run_all (all_tasks seed first rest) (init_store seed w).
Proof. unfold final_store, built_tasks, built_store, all_tasks. apply advance_resume. Qed.

(** *** The tasks of a chain *)

Lemma later_tasks_lookup steps : forall n prev idx j t,
  later_tasks n prev idx steps !! j = Some t ->
  exists fn o,
    steps !! j = Some (fn, o) /\
    t = mkTask (n + j) fn (parseChainOptions o)
          (OfImpl (if j is O then prev else n + j - 1)%nat (idx + Z.of_nat j)) AwaitPrevious.
Proof.
  induction steps as [|[fn o] steps IH]; intros n prev idx j t H; [done|].
  destruct j as [|j]; simpl in H.
  - inversion H; subst. exists fn, o. split; [done|].
    by rewrite Nat.add_0_r, Z.add_0_r.
  - apply IH in H as (fn' & o' & Hl & ->). exists fn', o'. split; [done|].
    f_equal; [lia|]. f_equal; [destruct j; lia|lia].
Qed.

Lemma all_tasks_lookup seed first rest j t :
  all_tasks seed first rest !! j = Some t ->
  t_promise t = j /\
  exists step, (first :: rest) !! j = Some step /\
    t_fn t = fst step /\ t_options t = parseChainOptions (snd step) /\
    match j with
    | O => t_owner t = OfInit (seed_index seed) /\ t_point t = LoopHead 0
    | S i => t_owner t = OfImpl i (seed_index seed + Z.of_nat j) /\ t_point t = AwaitPrevious
    end.
Proof.
  unfold all_tasks. destruct j as [|j]; simpl.
  - intros H. inversion H; subst. split; [done|]. by exists first.
  - intros (fn & o & Hl & ->)%later_tasks_lookup. split; [simpl; lia|].
    exists (fn, o). split; [done|]. simpl. repeat split.
    f_equal; [destruct j; lia|lia].
Qed.

Lemma all_tasks_length seed first (rest : list (StepFn World * option ChainOptions)) :
  length (all_tasks seed first rest) = S (length rest).
Proof.
  unfold all_tasks. simpl. f_equal.
  generalize 1%nat O (seed_index seed + 1).
  induction rest as [|[fn o] rest IH]; intros n p i; simpl; [done|]. by rewrite IH.
Qed.

(** *** Properties of the heap that every run preserves *)

Lemma step_preserves (P : Store World -> Prop) t :
  (forall s, P s -> P (write_back t s)) ->
  (forall a s, P s -> P (snd (call t a s))) ->
  (forall ms s, P s -> P (log (EvSleep (t_promise t) ms) s)) ->
  forall pt s s' nx, step t pt s = (s', nx) -> P s -> P s'.
Proof.
  intros Hw Hc Hl pt s s' nx H HP. unfold step in H. destruct pt as [|a|a r|a x|a].
  - destruct (t_owner t) as [i|p i]; [|destruct (promises s !! p) as [[]|]];
      by inversion H; subst.
  - destruct (a <=? p_maxRetries (t_options t)); [|by inversion H; subst].
    specialize (Hc a _ (Hw _ HP)).
    destruct (call t a (write_back t s)) as [r s1]. cbn [snd] in Hc.
    destruct r; by inversion H; subst.
  - destruct (race _ _ r); by inversion H; subst.
  - cbv zeta in H. destruct (_ && _); [|by inversion H; subst].
    destruct (0 <? _); inversion H; subst; [by apply Hl|done].
  - by inversion H; subst.
Qed.

Lemma exec_preserves (P : Store World -> Prop) t :
  (forall s, P s -> P (write_back t s)) ->
  (forall a s, P s -> P (snd (call t a s))) ->
  (forall ms s, P s -> P (log (EvSleep (t_promise t) ms) s)) ->
  forall sync pt s s' st, exec sync t pt s = Some (s', st) -> P s -> P s'.
Proof.
  intros Hw Hc Hl sync pt s s' st Hrun HP. unfold exec in Hrun.
  eapply (run_invariant (fun _ s1 => P s1)) in Hrun as (pt1 & s1 & HI & Hlast).
  - destruct st as [p|c].
    + destruct Hlast as [[Hs _]|[Hs _]]; by eapply step_preserves.
    + by eapply step_preserves.
  - intros pt0 s0 pt' s0' HI Hs. by eapply step_preserves.
  - exact HP.
Qed.

Lemma replay_snoc (tr : list Event) ev h :
  replay (tr ++ [ev]) h =
  match ev with
  | EvWrite _ k v => <[k := v]> (replay tr h)
  | _ => replay tr h
  end.
Proof. by rewrite replay_app. Qed.

Lemma seed_index_seeded seed : seed_index seed = Z.of_nat (length (seeded seed)).
Proof. by destruct seed. Qed.

Lemma coherent_log seed ev s :
  (forall n k v, ev <> EvWrite n k v) ->
  (forall n a seen r, ev = EvCall n a seen r -> seen = history s) ->
  coherent seed s -> coherent seed (log ev s).
Proof.
  intros Hnw Hcall (H1 & H2 & H3). split; [|split].
  - exact H1.
  - cbn [log trace history]. rewrite replay_snoc, <- H2.
    destruct ev; try done. by edestruct Hnw.
  - intros n a seen r [Hin|Hin%list_elem_of_singleton]%elem_of_app; cbn [log history].
    + by eapply H3.
    + symmetry in Hin. by rewrite (Hcall _ _ _ _ Hin).
Qed.

Lemma write_back_coherent seed t s :
  linked seed t -> coherent seed s -> coherent seed (write_back t s).
Proof.
  intros Hl Hco. unfold write_back. unfold linked in Hl.
  destruct (t_owner t) as [i|p i]; [done|].
  destruct (0 <? i); [|done].
  destruct (promises s !! p) as [[v|e]|] eqn:Hp; try done.
  destruct Hco as (H1 & H2 & H3).
  assert (Hsub : history s ⊆ <[key i := v]> (history s)).
  { destruct (history s !! key i) as [v'|] eqn:Hk; [|by apply insert_subseteq].
    destruct (H1 _ _ Hk) as [[Hk1 Hs]|(i' & Hk' & Hp')].
    - apply key_inj in Hk1. rewrite seed_index_seeded, Hs in Hl. simpl in Hl. lia.
    - apply key_inj in Hk'. assert (i' = p) as -> by lia.
      rewrite Hp in Hp'. inversion Hp'; subst. by rewrite insert_id. }
  split; [|split]; cbn [log history promises trace].
  - intros k v'. destruct (decide (k = key i)) as [->|Hne].
    + rewrite lookup_insert_eq. intros [= <-]. right. exists p. by rewrite <- Hl.
    + rewrite lookup_insert_ne by done. apply H1.
  - by rewrite replay_snoc, <- H2.
  - intros n a seen r [Hin|Hin%list_elem_of_singleton]%elem_of_app; [|done].
    etrans; [by eapply H3|exact Hsub].
Qed.

Lemma call_coherent seed t a s : coherent seed s -> coherent seed (snd (call t a s)).
Proof.
  intros (H1 & H2 & H3). rewrite call_eq. cbv zeta. cbn [snd].
  split; [|split]; cbn [history promises trace].
  - exact H1.
  - by rewrite replay_snoc.
  - intros n a' seen r [Hin|Hin%list_elem_of_singleton]%elem_of_app.
    + by eapply H3.
    + by inversion Hin.
Qed.

Lemma exec_coherent seed sync t pt s s' st :
  linked seed t -> exec sync t pt s = Some (s', st) -> coherent seed s -> coherent seed s'.
Proof.
  intros Hl. apply exec_preserves.
  - intros s0. by apply write_back_coherent.
  - intros a s0. apply call_coherent.
  - intros ms s0. by apply coherent_log.
Qed.

Lemma settle_coherent seed t c s :
  promises s !! t_promise t = None -> coherent seed s -> coherent seed (settle t c s).
Proof.
  intros Hfresh Hco. unfold settle. apply coherent_log; [done|done|].
  destruct Hco as (H1 & H2 & H3). split; [|done]. cbn [history promises].
  intros k v Hk. destruct (H1 _ _ Hk) as [?|(i & Hki & Hp)]; [by left|right].
  exists i. split; [done|]. rewrite lookup_insert_ne; [done|]. congruence.
Qed.

(** *** The heap along a chain *)

(** What resuming a task leaves: events of its own, and its promise
    settled if it ran to its end. *)
Lemma advance_effects t s :
  exists evs,
    trace (fst (advance_store false t s)) = trace s ++ evs /\
    history (fst (advance_store false t s)) = replay evs (history s) /\
    Forall (own t s) evs /\
    ((promises (fst (advance_store false t s)) = promises s /\
      exists s' pt, exec false t (t_point t) s = Some (s', Parked pt)) \/
     (exists s' c, exec false t (t_point t) s = Some (s', Done c) /\
        promises (fst (advance_store false t s)) = <[t_promise t := c]> (promises s) /\
        trace (fst (advance_store false t s)) = trace s' ++ [EvSettle (t_promise t) c])).
Proof.
  unfold advance_store.
  destruct (exec_total false t (t_point t) s) as [[s' st] Hex]. rewrite Hex.
  destruct (exec_reaches _ _ _ _ _ _ Hex) as [Hp (evs & Htr & Hh & Hown)].
  destruct st as [pt|c]; cbn [fst].
  - exists evs. repeat split; try done. left. split; [done|]. by exists s', pt.
  - exists (evs ++ [EvSettle (t_promise t) c]). unfold settle. cbn [log trace history promises].
    split; [by rewrite Htr, app_assoc|]. split; [by rewrite replay_snoc|].
    split; [apply Forall_app; split; [done|by repeat constructor]|].
    right. exists s', c. by rewrite Hp.
Qed.

Lemma sorted_same_task (evs : list Event) (n : nat) :
  Forall (fun ev => ev_task ev = n) evs ->
  StronglySorted (fun a b => (ev_task a <= ev_task b)%nat) evs.
Proof.
  induction 1 as [|ev evs Hev Hall IH]; constructor; [done|].
  eapply Forall_impl; [exact Hall|]. intros ev' Hev'. simpl in *. lia.
Qed.

Lemma before_S (ts : list (Task World)) s j t :
  ts !! j = Some t ->
  before ts s (S j) = fst (advance_store false t (before ts s j)).
Proof. intros H. unfold before. by rewrite (take_S_r _ _ _ H), run_all_app. Qed.

Lemma before_all (ts : list (Task World)) s : before ts s (length ts) = run_all ts s.
Proof. unfold before. by rewrite take_ge. Qed.

Lemma chain_inv_init seed (w : World) : chain_inv seed 0 (init_store seed w).
Proof.
  assert (Hh : history (init_store seed w) = entries seed []) by by destruct seed.
  assert (Hp : promises (init_store seed w) = ∅) by by destruct seed.
  assert (Ht : trace (init_store seed w) = []) by by destruct seed.
  split; [split; [|split]|split; [|split; [|split]]]; rewrite ?Ht, ?Hp.
  - intros k v. rewrite Hh. unfold entries. rewrite app_nil_r.
    destruct seed; simpl; rewrite ?lookup_empty; try done;
      (destruct (decide (k = key 1)) as [->|Hne];
       [rewrite lookup_insert_eq; intros [= <-]; by left
       |by rewrite lookup_insert_ne, lookup_empty]).
  - by rewrite Hh.
  - intros n a seen r Hin. by apply elem_of_nil in Hin.
  - intros m _. apply lookup_empty.
  - constructor.
  - constructor.
  - intros n k v Hin. by apply elem_of_nil in Hin.
Qed.

Lemma all_tasks_linked seed first rest j t :
  all_tasks (World:=World) seed first rest !! j = Some t -> linked seed t.
Proof.
  intros (_ & step & _ & _ & _ & Ho)%all_tasks_lookup. unfold linked.
  destruct j as [|i]; destruct Ho as [-> _]; [done|]. reflexivity.
Qed.

Lemma chain_inv_step seed first rest j t s :
  all_tasks seed first rest !! j = Some t ->
  chain_inv seed j s ->
  chain_inv seed (S j) (fst (advance_store false t s)).
Proof.
  intros Ht (Hco & Hfresh & Hlt & Hsort & Hwr).
  pose proof (all_tasks_linked _ _ _ _ _ Ht) as Hlink.
  apply all_tasks_lookup in Ht as (Hid & step & _ & _ & _ & Hown).
  destruct (advance_effects t s) as (evs & Htr & Hh & Hevs & Hprom).
  assert (Hp' : forall m, m <> j ->
            promises (fst (advance_store false t s)) !! m = promises s !! m).
  { intros m Hm. destruct Hprom as [[-> _]|(s' & c & _ & -> & _)]; [done|].
    rewrite lookup_insert_ne; [done|]. by rewrite Hid. }
  split; [|split; [|split; [|split]]].
  - unfold advance_store.
    destruct (exec_total false t (t_point t) s) as [[s' st] Hex]. rewrite Hex.
    pose proof (exec_coherent seed _ _ _ _ _ _ Hlink Hex Hco) as Hco'.
    destruct st as [pt|c]; [done|]. cbn [fst]. apply settle_coherent; [|done].
    destruct (exec_reaches _ _ _ _ _ _ Hex) as [-> _]. apply Hfresh. lia.
  - intros m Hm. rewrite Hp' by lia. apply Hfresh. lia.
  - rewrite Htr. apply Forall_app. split.
    + eapply Forall_impl; [exact Hlt|]. simpl. lia.
    + eapply Forall_impl; [exact Hevs|]. intros ev [-> _]. lia.
  - rewrite Htr. apply StronglySorted_app. split; [|split; [done|]].
    + intros a b Ha Hb. rewrite Forall_forall in Hlt, Hevs.
      apply Hlt in Ha. apply Hevs in Hb as [-> _]. lia.
    + apply (sorted_same_task _ (t_promise t)).
      eapply Forall_impl; [exact Hevs|]. by intros ev [-> _].
  - intros n k v. rewrite Htr. intros [Hin|Hin]%elem_of_app.
    + destruct (Hwr _ _ _ Hin) as (i & -> & -> & Hp). exists i. repeat split.
      rewrite Hp'; [done|]. rewrite Forall_forall in Hlt. apply Hlt in Hin.
      simpl in Hin. lia.
    + rewrite Forall_forall in Hevs. destruct (Hevs _ Hin) as [Hn (p & i & Ho & Hi & -> & Hp)].
      simpl in Hn. destruct j as [|j']; destruct Hown as [Ho' _]; rewrite Ho in Ho';
        [discriminate|]. inversion Ho'; subst p i.
      exists j'. split; [congruence|]. split; [done|].
      rewrite Hp'; [done|lia].
Qed.

Lemma chain_inv_before seed first rest (w : World) j :
  (j <= S (length rest))%nat ->
  chain_inv seed j (before (all_tasks seed first rest) (init_store seed w) j).
Proof.
  induction j as [|j IH]; intros Hj; [apply chain_inv_init|].
  destruct (lookup_lt_is_Some_2 (all_tasks seed first rest) j) as [t Ht].
  { rewrite all_tasks_length. lia. }
  rewrite (before_S _ _ _ _ Ht). eapply chain_inv_step; [exact Ht|]. apply IH. lia.
Qed.

(** A task settles no promise but its own, and adds events of its own
    only. *)
Lemma before_frame seed first rest (w : World) j j' :
  (j <= j')%nat -> (j' <= S (length rest))%nat ->
  let ts := all_tasks seed first rest in
  let s0 := init_store seed w in
  (forall m, (m < j)%nat ->
     promises (before ts s0 j') !! m = promises (before ts s0 j) !! m) /\
  exists evs, trace (before ts s0 j') = trace (before ts s0 j) ++ evs /\
              Forall (fun ev => (j <= ev_task ev)%nat) evs.
Proof.
  intros Hjj' Hj' ts s0. induction Hjj' as [|j' Hjj' IH].
  { split; [done|]. exists []. by rewrite app_nil_r. }
  destruct IH as [IHp (evs & IHt & IHe)]; [lia|].
  destruct (lookup_lt_is_Some_2 ts j') as [t Ht].
  { unfold ts. rewrite all_tasks_length. lia. }
  rewrite (before_S _ _ _ _ Ht).
  destruct (advance_effects t (before ts s0 j')) as (evs' & Htr & _ & Hevs & Hprom).
  apply all_tasks_lookup in Ht as (Hid & _).
  split.
  - intros m Hm. rewrite <- IHp by done.
    destruct Hprom as [[-> _]|(s' & c & _ & -> & _)]; [done|].
    rewrite lookup_insert_ne; [done|]. lia.
  - exists (evs ++ evs'). split; [by rewrite Htr, IHt, app_assoc|].
    apply Forall_app. split; [done|].
    eapply Forall_impl; [exact Hevs|]. intros ev [-> _]. lia.
Qed.

Lemma replay_lookup (tr : list Event) h k :
  (replay tr h !! k = h !! k /\ forall n v, EvWrite n k v ∉ tr) \/
  (exists n v, EvWrite n k v ∈ tr /\ replay tr h !! k = Some v).
Proof.
  induction tr as [|ev tr IH] using rev_ind.
  { left. split; [done|]. intros n v Hin. by apply elem_of_nil in Hin. }
  rewrite replay_snoc.
  assert (Hkeep : (forall n v, ev <> EvWrite n k v) ->
            forall m : gmap string Value,
              m = replay tr h ->
              (m !! k = h !! k /\ forall n v, EvWrite n k v ∉ tr ++ [ev]) \/
              (exists n v, EvWrite n k v ∈ tr ++ [ev] /\ m !! k = Some v)).
  { intros Hne m ->. destruct IH as [[Heq Hno]|(n & v & Hin & Hl)].
    - left. split; [done|]. intros n v [Hin|Hin%list_elem_of_singleton]%elem_of_app.
      + by eapply Hno.
      + by eapply Hne.
    - right. exists n, v. split; [|done]. apply elem_of_app. by left. }
  destruct ev as [| n' k' v' | |]; try (apply Hkeep; done).
  destruct (decide (k' = k)) as [->|Hne].
  - right. exists n', v'. split; [|apply lookup_insert_eq].
    apply elem_of_app. right. by apply list_elem_of_singleton.
  - rewrite lookup_insert_ne by done. apply Hkeep; [|done]. congruence.
Qed.

Lemma chains_store_inv seed first rest (w : World) :
  chain_inv seed (S (length rest)) (store (snd (chains seed first rest w))).
Proof.
  destruct (chains_final seed first rest w) as (e & -> & He). cbn [snd].
  rewrite He, final_store_all, <- before_all, all_tasks_length.
  by apply chain_inv_before.
Qed.

(** *** How a task ends *)

Lemma race_won timeout step r v :
  race timeout step r = Won v -> exists ms, r = Fulfils v ms.
Proof.
  unfold race. destruct timeout as [T|], r as [v' ms|x ms|x|]; try discriminate.
  - destruct (ms <=? Z.max 0 T); [|discriminate]. intros [= ->]. by exists ms.
  - by destruct (ms <=? Z.max 0 T).
  - intros [= ->]. by exists ms.
Qed.

Lemma race_lost timeout step r x :
  race timeout step r = Lost x -> original r (normalizeError x).
Proof.
  unfold race, original. destruct timeout as [T|], r as [v' ms|x' ms|x'|]; try discriminate.
  - destruct (ms <=? Z.max 0 T); [discriminate|]. intros [= <-]. right. by exists T, step.
  - destruct (ms <=? Z.max 0 T); intros [= <-].
    + left. exists x'. split; [|done]. right. by exists ms.
    + right. by exists T, step.
  - intros [= <-]. left. exists x'. split; [|done]. by left.
  - intros [= <-]. right. by exists T, step.
  - intros [= <-]. left. exists x'. split; [|done]. right. by exists ms.
  - intros [= <-]. left. exists x'. split; [|done]. by left.
Qed.

Lemma call_trace t a s r s' :
  call t a s = (r, s') ->
  exists seen, trace s' = trace s ++ [EvCall (t_promise t) a seen r].
Proof. rewrite call_eq. cbv zeta. intros [= <- <-]. by eexists. Qed.

(** How a task that entered its loop can end: with the value of its last
    call, with the error of its last call, normalized, or, if [retry] is
    negative, with [undefined] and no call at all. *)
Lemma exec_outcome sync t s s' c :
  exec sync t (LoopHead 0) s = Some (s', Done c) ->
  (exists pre a seen v ms,
     trace s' = pre ++ [EvCall (t_promise t) a seen (Fulfils v ms)] /\
     c = wrapResult v None (p_withoutThrow (t_options t))) \/
  (exists pre a seen r error,
     trace s' = pre ++ [EvCall (t_promise t) a seen r] /\
     original r error /\
     c = wrapResult VUndefined (Some error) (p_withoutThrow (t_options t))) \/
  (p_maxRetries (t_options t) < 0 /\ c = Return VUndefined /\ s' = s).
Proof.
  intros Hrun. unfold exec in Hrun.
  set (I := fun pt s1 =>
    match pt with
    | AwaitPrevious => False
    | LoopHead a =>
        (0 <= p_maxRetries (t_options t) -> a <= p_maxRetries (t_options t)) /\
        (a = 0 /\ s1 = s \/ a <= p_maxRetries (t_options t))
    | AwaitDelay a => a <= p_maxRetries (t_options t)
    | AwaitStep a r => exists pre seen, trace s1 = pre ++ [EvCall (t_promise t) a seen r]
    | Caught a x =>
        exists pre seen r, trace s1 = pre ++ [EvCall (t_promise t) a seen r] /\
                           original r (normalizeError x)
    end).
  eapply (run_invariant I) in Hrun as (pt1 & s1 & HI & Hlast).
  - unfold step in Hlast. destruct pt1 as [|a|a r|a x|a]; try done.
    + destruct HI as [HI1 HI2]. destruct (Z.leb_spec a (p_maxRetries (t_options t))).
      * destruct (call t a (write_back t s1)) as [r s2]. by destruct r.
      * inversion Hlast; subst. right. right. destruct HI2 as [[-> ->]|]; [|lia].
        split; [lia|done].
    + destruct HI as (pre & seen & Htr).
      destruct (race _ _ r) as [v|x|] eqn:Hrace; try done.
      inversion Hlast; subst. apply race_won in Hrace as [ms ->].
      left. by exists pre, a, seen, v, ms.
    + destruct HI as (pre & seen & r & Htr & Hor). cbv zeta in Hlast.
      destruct (_ && _); [by destruct (0 <? _)|].
      inversion Hlast; subst. right. left.
      by exists pre, a, seen, r, (normalizeError x).
  - clear Hrun. intros pt0 s0 pt' s0' HI0 Hs. unfold step in Hs.
    destruct pt0 as [|a|a r|a x|a]; try done; unfold I in HI0.
    + destruct (a <=? p_maxRetries (t_options t)); [|done].
      destruct (call t a (write_back t s0)) as [r s2] eqn:Hcall.
      apply call_trace in Hcall as [seen Htr].
      destruct r; inversion Hs; subst; unfold I; try by eexists _, _.
      eexists _, seen, (ThrowsSync x). split; [done|]. left. exists x.
      split; [by left|done].
    + destruct HI0 as (pre & seen & Htr).
      destruct (race _ _ r) as [v|x|] eqn:Hrace; try done.
      inversion Hs; subst. exists pre, seen, r. split; [done|]. by eapply race_lost.
    + cbv zeta in Hs. destruct (Z.ltb_spec a (p_maxRetries (t_options t))); [|done].
      destruct (shouldRetry _ _); [|done].
      destruct (0 <? _); inversion Hs; subst; unfold I; [lia|].
      split; [lia|]. right. lia.
    + inversion Hs; subst. unfold I. split; [done|]. by right.
  - unfold I. split; [done|]. by left.
Qed.

(** *** A rejection passes through the steps that follow *)

Lemma advance_rejected t s p i error :
  t_owner t = OfImpl p i ->
  t_point t = AwaitPrevious ->
  promises s !! p = Some (Throw error) ->
  fst (advance_store false t s) = settle t (Throw error) s.
Proof.
  intros Ho Hpt Hp. unfold advance_store.
  by rewrite Hpt, (exec_await_previous _ _ _ _ _ Ho), Hp.
Qed.

Lemma rejection_propagates seed first rest (w : World) k error (d : nat) :
  let ts := all_tasks seed first rest in
  let s0 := init_store seed w in
  promises (before ts s0 (S k)) !! k = Some (Throw error) ->
  (S k + d <= S (length rest))%nat ->
  promises (before ts s0 (S k + d)) !! (k + d)%nat = Some (Throw error) /\
  trace (before ts s0 (S k + d)) =
    trace (before ts s0 (S k)) ++ map (fun j => EvSettle j (Throw error)) (seq (S k) d).
Proof.
  intros ts s0 Hk. induction d as [|d IH]; intros Hd.
  { rewrite !Nat.add_0_r. split; [done|]. by rewrite app_nil_r. }
  destruct IH as [IHp IHt]; [lia|].
  destruct (lookup_lt_is_Some_2 ts (S k + d)) as [t Ht].
  { unfold ts. rewrite all_tasks_length. lia. }
  replace (S k + S d)%nat with (S (S k + d)) by lia.
  rewrite (before_S _ _ _ _ Ht).
  apply all_tasks_lookup in Ht as (Hid & step & _ & _ & _ & Ho & Hpt).
  cbn [Nat.add] in Ho.
  rewrite (advance_rejected _ _ _ _ error Ho Hpt) by exact IHp.
  unfold settle. cbn [log promises trace]. split.
  - rewrite Hid. replace (k + S d)%nat with (S k + d)%nat by lia. apply lookup_insert_eq.
  - rewrite IHt, seq_S, map_app, Hid, <- app_assoc. reflexivity.
Qed.

(** The task whose promise is settled ran to its end, and its last event
    is the settlement. *)
Lemma settled_task seed first rest (w : World) k c :
  let ts := all_tasks seed first rest in
  let s0 := init_store seed w in
  promises (run_all ts s0) !! k = Some c ->
  exists t s',
    ts !! k = Some t /\
    exec false t (t_point t) (before ts s0 k) = Some (s', Done c) /\
    promises (before ts s0 (S k)) !! k = Some c /\
    trace (before ts s0 (S k)) = trace s' ++ [EvSettle k c].
Proof.
  intros ts s0 Hc.
  assert (Hlen : length ts = S (length rest)) by apply all_tasks_length.
  assert (Hk : (k < S (length rest))%nat).
  { destruct (Nat.lt_ge_cases k (S (length rest))) as [|Hge]; [done|].
    pose proof (chain_inv_before seed first rest w (S (length rest)) ltac:(lia))
      as (_ & Hfresh & _).
    fold ts s0 in Hfresh. rewrite <- Hlen, before_all in Hfresh.
    rewrite Hfresh in Hc; [done|lia]. }
  destruct (lookup_lt_is_Some_2 ts k) as [t Ht]; [lia|].
  destruct (before_frame seed first rest w (S k) (S (length rest)) ltac:(lia) ltac:(lia))
    as [Hframe _]. fold ts s0 in Hframe.
  rewrite <- Hlen, before_all in Hframe. rewrite Hframe in Hc by lia.
  rewrite (before_S _ _ _ _ Ht) in Hc |- *.
  pose proof (chain_inv_before seed first rest w k ltac:(lia)) as (_ & Hfresh & _).
  fold ts s0 in Hfresh.
  pose proof Ht as (Hid & _)%all_tasks_lookup.
  destruct (advance_effects t (before ts s0 k)) as (evs & _ & _ & _ & Hprom).
  destruct Hprom as [[Hp _]|(s' & c' & Hex & Hp & Htr)].
  - rewrite Hp, Hfresh in Hc; [done|lia].
  - rewrite Hp, Hid, lookup_insert_eq in Hc. inversion Hc; subst c'.
    exists t, s'. rewrite Hp, Htr, Hid, lookup_insert_eq. done.
Qed.

(** The final heap of a chain, as [chains] returns it. *)
Lemma chains_run_all seed first rest (w : World) :
  fst (chains seed first rest w) =
    promises (run_all (all_tasks seed first rest) (init_store seed w)) !! length rest /\
  store (snd (chains seed first rest w)) =
    run_all (all_tasks seed first rest) (init_store seed w).
Proof.
  destruct (chains_final seed first rest w) as (e & -> & He). cbn [fst snd].
  by rewrite He, final_store_all.
Qed.

(** A task whose awaited promise is resolved enters its loop. *)
Lemma enters_loop seed first rest (w : World) k t :
  let ts := all_tasks seed first rest in
  let s0 := init_store seed w in
  ts !! k = Some t ->
  (forall j, k = S j -> exists v, promises (run_all ts s0) !! j = Some (Return v)) ->
  exec false t (t_point t) (before ts s0 k) = exec false t (LoopHead 0) (before ts s0 k).
Proof.
  intros ts s0 Ht Hprev.
  assert (Hlen : length ts = S (length rest)) by apply all_tasks_length.
  assert (Hk : (k < S (length rest))%nat) by (rewrite <- Hlen; by eapply lookup_lt_Some).
  apply all_tasks_lookup in Ht as (Hid & step & _ & _ & _ & Ho).
  destruct k as [|j]; destruct Ho as [Ho ->]; [done|].
  rewrite (exec_await_previous _ _ _ _ _ Ho).
  destruct (Hprev j eq_refl) as [v Hv].
  destruct (before_frame seed first rest w (S j) (S (length rest)) ltac:(lia) ltac:(lia))
    as [Hframe _]. fold ts s0 in Hframe.
  rewrite <- Hlen, before_all in Hframe. rewrite Hframe in Hv by lia.
  by rewrite Hv.
Qed.

(** *** The step after a resolved step *)

Lemma advance_trace_call t s p i v :
  t_owner t = OfImpl p i ->
  t_point t = AwaitPrevious ->
  promises s !! p = Some (Return v) ->
  0 < i ->
  0 <= p_maxRetries (t_options t) ->
  exists seen r,
    EvCall (t_promise t) 0 seen r ∈ trace (fst (advance_store false t s)) /\
    seen !! key i = Some v.
Proof.
  intros Ho Hpt Hp Hi HM. unfold advance_store.
  rewrite Hpt, (exec_await_previous _ _ _ _ _ Ho), Hp, exec_loop_head by done.
  destruct (call t 0 (write_back t s)) as [r s2] eqn:Hcall.
  assert (Hs2 : trace s2 = trace (write_back t s)
                             ++ [EvCall (t_promise t) 0 (history (write_back t s)) r]).
  { rewrite call_eq in Hcall. cbv zeta in Hcall. by injection Hcall as <- <-. }
  assert (Hseen : history (write_back t s) !! key i = Some v).
  { unfold write_back. rewrite Ho, Hp. destruct (Z.ltb_spec 0 i); [|lia].
    cbn [log history]. apply lookup_insert_eq. }
  exists (history (write_back t s)), r. split; [|done].
  assert (Hin : EvCall (t_promise t) 0 (history (write_back t s)) r ∈ trace s2).
  { rewrite Hs2. apply elem_of_app. right. by apply list_elem_of_singleton. }
  set (pt2 := match r with ThrowsSync x => Caught 0 x | _ => AwaitStep 0 r end).
  assert (Hex : match r with
                | ThrowsSync error => exec false t (Caught 0 error) s2
                | _ => exec false t (AwaitStep 0 r) s2
                end = exec false t pt2 s2) by by destruct r.
  rewrite Hex. destruct (exec_total false t pt2 s2) as [[s3 st] Hrun]. rewrite Hrun.
  destruct (exec_reaches _ _ _ _ _ _ Hrun) as [_ (evs & Htr & _)].
  destruct st as [pt|c]; cbn [fst settle log trace]; rewrite Htr;
    repeat (apply elem_of_app; left); done.
Qed.

Lemma later_tasks_timeout_step rest : forall n prev idx,
  map (fun t : Task World => timeout_step (t_owner t)) (later_tasks n prev idx rest)
  = map (fun j => idx + Z.of_nat j) (seq 0 (length rest)).
Proof.
  induction rest as [|[fn o] rest IH]; intros n prev idx; [done|].
  cbn [later_tasks map length seq timeout_step t_owner]. f_equal; [lia|].
  rewrite IH, <- seq_shift, map_map. apply map_ext. intros j. lia.
Qed.

(** *** Attempts and pauses of any step *)

Lemma step_settled t pt s s' c : step t pt s = (s', Settled c) -> s' = s.
Proof.
  destruct pt as [|a|a r|a x|a]; cbn [step]; cbv zeta.
  - destruct (t_owner t); [done|]. destruct (promises s !! _) as [[]|]; try done.
    by intros [= <- _].
  - destruct (a <=? _); [|by intros [= <- _]].
    destruct (call t a (write_back t s)) as [r s1]. by destruct r.
  - destruct (race _ _ r); try done. by intros [= <- _].
  - destruct (_ && _); [by destruct (0 <? _)|]. by intros [= <- _].
  - done.
Qed.

Lemma attempts_with_retries_snoc delay n :
  attempts_with_retries delay (S n) =
  attempts_with_retries delay n ++ (if 0 <? delay then [Pause] else []) ++ [Attempt].
Proof.
  unfold attempts_with_retries.
  rewrite replicate_S_end, concat_app. cbn [concat]. by rewrite app_nil_r.
Qed.

Lemma paced_step t s0 pt s pt' s' :
  paced t s0 pt s -> step t pt s = (s', Goto pt') -> paced t s0 pt' s'.
Proof.
  intros (evs & Htr & HI) Hstep. unfold paced. cbv zeta.
  destruct pt as [|a|a r|a x|a]; cbn [step] in Hstep; cbv zeta in Hstep.
  - done.
  - destruct (Z.leb_spec a (p_maxRetries (t_options t))) as [Hle|]; [|done].
    destruct (write_back_trace t s) as (ev1 & Htr1 & Hs1).
    destruct (call t a (write_back t s)) as [r s1] eqn:Hcall.
    destruct (call_trace _ _ _ _ _ Hcall) as (seen & Htr2).
    assert (Hsch : 0 <= a <= p_maxRetries (t_options t) /\
      schedule (evs ++ ev1 ++ [EvCall (t_promise t) a seen r]) =
      attempts_with_retries (p_retryDelay (t_options t)) (Z.to_nat a)).
    { rewrite !schedule_app, Hs1. cbn [schedule omap app]. 
      destruct HI as [[-> ->]|[Ha ->]]; [done|].
      split; [lia|]. replace (Z.to_nat a) with (S (Z.to_nat (a - 1))) by lia.
      by rewrite attempts_with_retries_snoc, <- app_assoc. }
    assert (Htr' : trace s1 = trace s0 ++ evs ++ ev1 ++ [EvCall (t_promise t) a seen r]).
    { by rewrite Htr2, Htr1, Htr, <- !app_assoc. }
    destruct r; injection Hstep as <- <-; eauto.
  - destruct (race _ _ r); [done| |done]. injection Hstep as <- <-. by exists evs.
  - destruct HI as [Ha Hsch].
    destruct (Z.ltb_spec a (p_maxRetries (t_options t))) as [Hlt|]; [|done].
    rewrite andb_true_l in Hstep.
    destruct (shouldRetry _ _); [|done].
    destruct (0 <? p_retryDelay (t_options t)) eqn:Hd; injection Hstep as <- <-.
    + exists (evs ++ [EvSleep (t_promise t) (p_retryDelay (t_options t))]).
      cbn [log trace]. rewrite Htr, <- app_assoc. split; [done|].
      split; [lia|]. replace (a + 1 - 1) with a by lia. by rewrite schedule_app, Hsch.
    + exists evs. split; [done|]. right. split; [lia|].
      replace (a + 1 - 1) with a by lia. by rewrite Hsch, app_nil_r.
  - injection Hstep as <- <-. exists evs. split; [done|]. right. destruct HI as [Ha Hs]. done.
Qed.

Lemma started_step t pt s pt' s' :
  started t pt s -> step t pt s = (s', Goto pt') -> started t pt' s'.
Proof.
  intros [Hne HI] Hstep.
  destruct pt as [|a|a r|a x|a]; cbn [step] in Hstep; cbv zeta in Hstep.
  - done.
  - destruct (a <=? _); [|done].
    destruct (call t a (write_back t s)) as [r s1] eqn:Hcall.
    destruct (call_trace _ _ _ _ _ Hcall) as (seen & Htr).
    destruct r; injection Hstep as <- <-; (split; [done|]); intros a' r' [=]; subst; eauto.
  - destruct (race _ _ r); [done| |done]. injection Hstep as <- <-. by split.
  - destruct (_ && _); [|done]. destruct (0 <? _); injection Hstep as <- <-; by split.
  - injection Hstep as <- <-. by split.
Qed.

Lemma attempts_app (tr1 tr2 : list Event) : attempts (tr1 ++ tr2) = attempts tr1 ++ attempts tr2.
Proof. apply omap_app. Qed.

Lemma numbered_snoc rs r : numbered (rs ++ [r]) = numbered rs ++ [(Z.of_nat (length rs), r)].
Proof. unfold numbered. rewrite imap_app. cbn. by rewrite Nat.add_0_r. Qed.

Lemma write_back_attempts t s :
  exists evs, trace (write_back t s) = trace s ++ evs /\ attempts evs = [].
Proof.
  unfold write_back. destruct (t_owner t) as [|p i]; [exists []; by rewrite app_nil_r|].
  destruct (0 <? i); [|exists []; by rewrite app_nil_r].
  destruct (promises s !! p) as [[v|]|]; try (exists []; by rewrite app_nil_r).
  by eexists [_].
Qed.

Lemma retrying_step t s0 pt s pt' s' :
  retrying t s0 pt s -> step t pt s = (s', Goto pt') -> retrying t s0 pt' s'.
Proof.
  intros (evs & rs & Htr & Hat & HI) Hstep. unfold retrying.
  destruct pt as [|a|a r|a x|a]; cbn [step] in Hstep; cbv zeta in Hstep.
  - done.
  - destruct HI as [Ha Hall].
    destruct (a <=? _); [|done].
    destruct (write_back_attempts t s) as (ev1 & Htr1 & Hat1).
    destruct (call t a (write_back t s)) as [r s1] eqn:Hcall.
    destruct (call_trace _ _ _ _ _ Hcall) as (seen & Htr2).
    assert (Htr' : trace s1 = trace s0 ++ evs ++ ev1 ++ [EvCall (t_promise t) a seen r]).
    { by rewrite Htr2, Htr1, Htr, <- !app_assoc. }
    assert (Hat' : attempts (evs ++ ev1 ++ [EvCall (t_promise t) a seen r]) =
                   numbered (rs ++ [r])).
    { rewrite !attempts_app, Hat, Hat1, numbered_snoc, Ha. reflexivity. }
    destruct r; injection Hstep as <- <-; do 2 eexists;
      (split; [exact Htr'|split; [exact Hat'|]]);
      [by exists rs|by exists rs|by exists rs, (ThrowsSync x)|by exists rs].
  - destruct HI as (rs' & -> & Ha & Hall).
    destruct (race _ _ r) as [v|x|] eqn:Hrace; [done| |done].
    injection Hstep as <- <-. exists evs, (rs' ++ [r]).
    split; [done|]. split; [done|]. exists rs', r.
    split; [done|split; [done|split; [|done]]].
    unfold failure. destruct r; rewrite ?Hrace; try done.
    unfold race in Hrace. destruct (p_timeout _); congruence.
  - destruct HI as (rs' & r & -> & Ha & Hfail & Hall).
    destruct (Z.ltb_spec a (p_maxRetries (t_options t))) as [Hlt|]; [|done].
    rewrite andb_true_l in Hstep.
    destruct (shouldRetry _ _) eqn:Hsr; [|done].
    assert (Hall' : forall i r0, (rs' ++ [r]) !! i = Some r0 -> retriable t (Z.of_nat i) r0).
    { intros i r0 Hl. apply lookup_app_Some in Hl as [Hl|[Hge Hl]]; [by apply Hall|].
      apply list_lookup_singleton_Some in Hl as [Hi <-].
      assert (i = length rs') as -> by lia. rewrite <- Ha. split; [done|]. by exists x. }
    assert (Hlen : a + 1 = Z.of_nat (length (rs' ++ [r]))).
    { rewrite length_app. cbn. lia. }
    destruct (0 <? _); injection Hstep as <- <-.
    + exists (evs ++ [EvSleep (t_promise t) (p_retryDelay (t_options t))]), (rs' ++ [r]).
      cbn [log trace]. rewrite Htr, <- app_assoc, attempts_app, Hat. cbn.
      by rewrite app_nil_r.
    + by exists evs, (rs' ++ [r]).
  - injection Hstep as <- <-. by exists evs, rs.
Qed.

(** *** A timeout that no attempt reaches *)

Lemma race_punctual timeout step r :
  punctual timeout r -> race (Some timeout) step r = race None step r.
Proof.
  destruct r as [v ms|x ms|x|]; cbn [punctual race]; try done.
  - intros H. by destruct (Z.leb_spec ms (Z.max 0 timeout)); [|lia].
  - intros H. by destruct (Z.leb_spec ms (Z.max 0 timeout)); [|lia].
Qed.

Lemma step_without_timeout t T pt s :
  p_timeout (t_options t) = Some T ->
  (forall view w, punctual T (fst (t_fn t view w))) ->
  awaits_punctual T pt ->
  step (without_timeout t) pt s = step t pt s /\
  forall s' pt', step t pt s = (s', Goto pt') -> awaits_punctual T pt'.
Proof.
  intros HT Hfn Hpt. destruct pt as [|a|a r|a x|a].
  - split; [done|]. cbn [step]. intros s' pt'.
    destruct (t_owner t); [by intros [= <- <-]|].
    destruct (promises s !! _) as [[]|]; try done. by intros [= <- <-].
  - split; [done|]. cbn [step]. cbv zeta. intros s' pt'.
    destruct (a <=? _); [|done]. rewrite call_eq. cbv zeta.
    destruct (fst (t_fn t _ _)) eqn:Hr; intros [= <- <-]; try done;
      cbn [awaits_punctual]; rewrite <- Hr; apply Hfn.
  - cbn [step]. cbv zeta. cbn [without_timeout t_options p_timeout t_owner p_withoutThrow].
    rewrite HT, (race_punctual _ _ _ Hpt). split; [done|].
    intros s' pt'. destruct (race None _ r); try done. by intros [= <- <-].
  - split; [done|]. cbn [step]. cbv zeta. intros s' pt'.
    destruct (_ && _); [|done]. by destruct (0 <? _); intros [= <- <-].
  - split; [done|]. cbn [step]. by intros s' pt' [= <- <-].
Qed.

Lemma run_without_timeout t T sync n :
  p_timeout (t_options t) = Some T ->
  (forall view w, punctual T (fst (t_fn t view w))) ->
  forall pt s, awaits_punctual T pt ->
  run sync n (without_timeout t) pt s = run sync n t pt s.
Proof.
  intros HT Hfn. induction n as [|n IH]; intros pt s Hpt; [done|].
  cbn [run]. destruct (step_without_timeout t T pt s HT Hfn Hpt) as [-> Hnext].
  destruct (step t pt s) as [s' [pt'| |]]; try done.
  destruct (sync && is_await pt'); [done|]. apply IH. by eapply Hnext.
Qed.

(** *** What the calls of a chain read *)

Lemma all_tasks_lookup_step seed first rest j step :
  (first :: rest) !! j = Some step ->
  exists t, all_tasks (World:=World) seed first rest !! j = Some t.
Proof.
  intros H. apply lookup_lt_is_Some. rewrite all_tasks_length.
  apply lookup_lt_Some in H. cbn in H. lia.
Qed.

Lemma startsWith_r_key i : startsWith_r (key i) = true.
Proof. apply JSFacts.prefix_app. by exists (pretty i). Qed.

(** A property of the heap that every transition preserves holds when the
    run ends. *)
Lemma exec_step_closed (P : Store World -> Prop) t :
  (forall pt s s' nx, step t pt s = (s', nx) -> P s -> P s') ->
  forall sync pt s s' st, exec sync t pt s = Some (s', st) -> P s -> P s'.
Proof.
  intros Hstep sync pt s s' st Hexec HP.
  destruct (run_invariant (fun _ s => P s) sync t _
              (fun pt s pt' s' H Hs => Hstep pt s s' _ Hs H) _ _ _ _ HP Hexec)
    as (pt1 & s1 & HP1 & Hlast).
  destruct st as [p|c]; [destruct Hlast as [[Hs _]|[Hs _]]|]; eauto.
Qed.

Lemma each_call_app Q (l1 l2 : list Event) :
  each_call Q l1 -> each_call Q l2 -> each_call Q (l1 ++ l2).
Proof. apply Forall_app_2. Qed.

Lemma each_call_impl (Q Q' : nat -> Z -> gmap string Value -> Settle -> Prop) tr :
  (forall n a seen r, Q n a seen r -> Q' n a seen r) -> each_call Q tr -> each_call Q' tr.
Proof.
  intros H HQ. eapply Forall_impl; [exact HQ|].
  intros [n a seen r| | |]; try done. apply H.
Qed.

Lemma each_call_task (P : nat -> Prop) (tr : list Event) :
  Forall (fun ev => P (ev_task ev)) tr -> each_call (fun n _ _ _ => P n) tr.
Proof. intros H. eapply Forall_impl; [exact H|]. by intros []. Qed.

Lemma exec_calls_later t s0 p i v :
  t_owner t = OfImpl p i -> 0 < i ->
  promises s0 !! p = Some (Return v) ->
  forall sync pt s' st, exec sync t pt s0 = Some (s', st) ->
  exists evs, trace s' = trace s0 ++ evs /\
    each_call (fun n _ seen _ => n = t_promise t /\ seen !! key i = Some v) evs.
Proof.
  intros Ho Hi Hp sync pt s' st Hexec.
  set (Q := fun (n : nat) (_ : Z) (seen : gmap string Value) (_ : Settle) =>
              n = t_promise t /\ seen !! key i = Some v).
  set (J := fun s : Store World => promises s = promises s0 /\
     exists evs, trace s = trace s0 ++ evs /\ each_call Q evs).
  assert (H0 : J s0).
  { split; [done|]. exists []. rewrite app_nil_r. split; [done|]. constructor. }
  enough (HJ : J s') by apply HJ.
  revert H0. apply (exec_step_closed J t) with (sync := sync) (pt := pt) (st := st);
    [|exact Hexec].
  clear Hexec s' st pt. intros pt s s' nx Hstep (Hpr & evs & Htr & Hq). unfold J.
  destruct pt as [|a|a r|a x|a]; cbn [step] in Hstep; cbv zeta in Hstep.
  - assert (s' = s) as ->; [|split; [done|by exists evs]].
    destruct (t_owner t); [by injection Hstep|].
    destruct (promises s !! _) as [[]|]; by injection Hstep.
  - destruct (a <=? _); [|injection Hstep as <- _; split; [done|by exists evs]].
    rewrite call_eq in Hstep. cbv zeta in Hstep.
    assert (Hwb : write_back t s =
              log (EvWrite (t_promise t) (key i) v)
                (mkStore (world s) (<[key i := v]> (history s)) (promises s) (trace s))).
    { unfold write_back. rewrite Ho, Hpr, Hp.
      by destruct (Z.ltb_spec 0 i); [|lia]. }
    rewrite Hwb in Hstep. cbn [log history promises trace world] in Hstep.
    assert (s' = mkStore (snd (t_fn t (proxy_get (<[key i := v]> (history s))) (world s)))
                   (<[key i := v]> (history s)) (promises s)
                   ((trace s ++ [EvWrite (t_promise t) (key i) v]) ++
                    [EvCall (t_promise t) a (<[key i := v]> (history s))
                       (fst (t_fn t (proxy_get (<[key i := v]> (history s))) (world s)))]))
      as ->.
    { rewrite Ho in Hstep. by destruct (fst (t_fn t _ _)); injection Hstep as <- _. }
    cbn [promises trace]. split; [done|].
    eexists. rewrite Htr, <- !app_assoc. split; [reflexivity|].
    apply each_call_app; [done|]. repeat constructor. unfold Q. by rewrite lookup_insert_eq.
  - assert (s' = s) as ->; [|split; [done|by exists evs]].
    destruct (race _ _ r); by injection Hstep.
  - destruct (_ && _); [|injection Hstep as <- _; split; [done|by exists evs]].
    destruct (0 <? _); injection Hstep as <- _; [|split; [done|by exists evs]].
    cbn [log promises trace]. split; [done|]. eexists. rewrite Htr, <- app_assoc.
    split; [reflexivity|]. apply each_call_app; [done|]. by repeat constructor.
  - injection Hstep as <- _. split; [done|by exists evs].
Qed.

Lemma exec_calls_first t s0 i :
  t_owner t = OfInit i ->
  forall sync pt s' st, exec sync t pt s0 = Some (s', st) ->
  exists evs, trace s' = trace s0 ++ evs /\
    each_call (fun n _ seen _ => n = t_promise t /\ seen = history s0) evs.
Proof.
  intros Ho sync pt s' st Hexec.
  set (Q := fun (n : nat) (_ : Z) (seen : gmap string Value) (_ : Settle) =>
              n = t_promise t /\ seen = history s0).
  set (J := fun s : Store World => history s = history s0 /\
     exists evs, trace s = trace s0 ++ evs /\ each_call Q evs).
  assert (H0 : J s0).
  { split; [done|]. exists []. rewrite app_nil_r. split; [done|]. constructor. }
  enough (HJ : J s') by apply HJ.
  revert H0. apply (exec_preserves J t) with (sync := sync) (pt := pt) (st := st);
    [| | |exact Hexec].
  - intros s HJ. unfold write_back. by rewrite Ho.
  - intros a s (Hh & evs & Htr & Hq). rewrite call_eq. cbv zeta. cbn [snd].
    split; [done|]. cbn [trace]. eexists. rewrite Htr, <- app_assoc.
    split; [reflexivity|]. apply each_call_app; [done|]. by repeat constructor.
  - intros ms s (Hh & evs & Htr & Hq). split; [done|]. cbn [log trace].
    eexists. rewrite Htr, <- app_assoc.
    split; [reflexivity|]. apply each_call_app; [done|]. by repeat constructor.
Qed.

Lemma init_store_entries seed (w : World) :
  history (init_store seed w) = entries seed [] /\ trace (init_store seed w) = [].
Proof. by destruct seed. Qed.

Lemma advance_calls seed first rest (w : World) j t :
  let ts := all_tasks seed first rest in
  let s0 := init_store seed w in
  ts !! j = Some t ->
  exists evs,
    trace (before ts s0 (S j)) = trace (before ts s0 j) ++ evs /\
    each_call (fun n _ seen _ =>
                 match n with
                 | O => seen = entries seed []
                 | S i => exists v,
                     promises (before ts s0 j) !! i = Some (Return v) /\
                     seen !! key (seed_index seed + Z.of_nat (S i)) = Some v
                 end) evs.
Proof.
  cbv zeta. intros Ht. rewrite (before_S _ _ _ _ Ht).
  set (s := before (all_tasks seed first rest) (init_store seed w) j).
  destruct (all_tasks_lookup _ _ _ _ _ Ht) as (Hid & step & _ & _ & _ & Hown).
  assert (Hsplit : forall s' st evs,
            exec false t (t_point t) s = Some (s', st) ->
            trace s' = trace s ++ evs ->
            exists evs', trace (fst (advance_store false t s)) = trace s ++ evs ++ evs' /\
                         each_call (fun _ _ _ _ => False) evs').
  { intros s' st evs Hex Htr. unfold advance_store. rewrite Hex.
    destruct st as [p|c]; cbn [fst settle log trace].
    - exists []. rewrite app_nil_r. split; [done|]. constructor.
    - exists [EvSettle (t_promise t) c]. rewrite Htr, <- app_assoc.
      split; [done|]. by repeat constructor. }
  destruct (exec_total false t (t_point t) s) as [[s' st] Hex].
  destruct j as [|i].
  - destruct Hown as [Ho Hpt].
    destruct (exec_calls_first t s _ Ho _ _ _ _ Hex) as (evs & Htr & Hq).
    destruct (Hsplit _ _ _ Hex Htr) as (evs' & -> & Hq').
    eexists. split; [reflexivity|]. apply each_call_app.
    + revert Hq. apply each_call_impl. intros n a seen r [-> ->].
      rewrite Hid. apply init_store_entries.
    + revert Hq'. by apply each_call_impl.
  - destruct Hown as [Ho Hpt].
    destruct (promises s !! i) as [[v|error]|] eqn:Hp.
    + assert (Hpos : 0 < seed_index seed + Z.of_nat (S i)) by (destruct seed; cbn; lia).
      destruct (exec_calls_later t s i _ v Ho Hpos Hp _ _ _ _ Hex) as (evs & Htr & Hq).
      destruct (Hsplit _ _ _ Hex Htr) as (evs' & -> & Hq').
      eexists. split; [reflexivity|]. apply each_call_app.
      * revert Hq. apply each_call_impl. intros n a seen r [-> Hseen].
        rewrite Hid. by exists v.
      * revert Hq'. by apply each_call_impl.
    + rewrite Hpt, (exec_await_previous _ _ _ _ _ Ho), Hp in Hex.
      injection Hex as <- <-.
      destruct (Hsplit s (Done (Throw error)) []) as (evs' & -> & Hq').
      * by rewrite Hpt, (exec_await_previous _ _ _ _ _ Ho), Hp.
      * by rewrite app_nil_r.
      * eexists. split; [reflexivity|]. revert Hq'. by apply each_call_impl.
    + destruct (Hsplit s (Parked AwaitPrevious) []) as (evs' & -> & Hq').
      * by rewrite Hpt, (exec_await_previous _ _ _ _ _ Ho), Hp.
      * by rewrite app_nil_r.
      * eexists. split; [reflexivity|]. revert Hq'. by apply each_call_impl.
Qed.

(** *** A step that never settles *)

Lemma stall_propagates seed first rest (w : World) k (d : nat) :
  let ts := all_tasks seed first rest in
  let s0 := init_store seed w in
  promises (before ts s0 (S k)) !! k = None ->
  (S k + d <= S (length rest))%nat ->
  before ts s0 (S k + d) = before ts s0 (S k).
Proof.
  cbv zeta. intros Hk. induction d as [|d IH]; intros Hd.
  - by rewrite Nat.add_0_r.
  - assert (Hlt : (S k + d < length (all_tasks seed first rest))%nat)
      by (rewrite all_tasks_length; lia).
    destruct (lookup_lt_is_Some_2 _ _ Hlt) as [t Ht].
    replace (S k + S d)%nat with (S (S k + d)) by lia.
    rewrite (before_S _ _ _ _ Ht), IH by lia.
    destruct (all_tasks_lookup _ _ _ _ _ Ht) as (_ & _ & _ & _ & _ & Ho & Hpt).
    assert (Hp : promises (before (all_tasks seed first rest) (init_store seed w) (S k))
                 !! (k + d)%nat = None).
    { destruct d as [|d]; [by rewrite Nat.add_0_r|].
      destruct (chain_inv_before seed first rest w (S k) ltac:(lia)) as (_ & Hfresh & _).
      apply Hfresh. lia. }
    unfold advance_store.
    by rewrite Hpt, (exec_await_previous _ _ _ _ _ Ho), Hp.
Qed.

Lemma pending_stays seed first rest (w : World) k :
  let ts := all_tasks seed first rest in
  let s0 := init_store seed w in
  (k <= length rest)%nat ->
  promises (run_all ts s0) !! k = None ->
  run_all ts s0 = before ts s0 (S k) /\
  forall j, (k <= j)%nat -> promises (run_all ts s0) !! j = None.
Proof.
  cbv zeta. rewrite <- before_all, all_tasks_length.
  set (ts := all_tasks seed first rest). set (s0 := init_store seed w).
  intros Hk Hp.
  destruct (before_frame seed first rest w (S k) (S (length rest)) ltac:(lia) ltac:(lia))
    as [Hfr _].
  pose proof (stall_propagates seed first rest w k (length rest - k)) as Hstall.
  cbv zeta in Hstall. fold ts s0 in Hfr, Hstall.
  replace (S k + (length rest - k))%nat with (S (length rest)) in Hstall by lia.
  rewrite Hfr in Hp by lia. rewrite Hstall; [|done|lia].
  split; [done|].
  destruct (chain_inv_before seed first rest w (S k) ltac:(lia)) as (_ & Hfresh & _).
  fold ts s0 in Hfresh.
  intros j Hj. destruct (decide (j = k)) as [->|]; [done|]. apply Hfresh. lia.
Qed.

(** *** The tasks the event loop leaves suspended *)

Lemma event_loop_fold (ts : list (Task World)) : forall s acc n,
  fold_left (fun e t => advance false t e) ts (mkEngine s acc n) =
  mkEngine (run_all ts s) (acc ++ suspended ts s) n.
Proof.
  induction ts as [|t ts IH]; intros s acc n; cbn [fold_left suspended].
  - by rewrite app_nil_r.
  - unfold advance at 2. cbn [store tasks next_promise].
    destruct (advance_store false t s) as [s' p] eqn:Hadv.
    rewrite IH, run_all_cons, Hadv. cbn [fst snd]. by rewrite app_assoc.
Qed.

Lemma event_loop_eq (e : Engine World) :
  event_loop e =
  mkEngine (run_all (tasks e) (store e)) (suspended (tasks e) (store e)) (next_promise e).
Proof. unfold event_loop. by rewrite event_loop_fold. Qed.

Lemma advance_store_resume t s s1 p :
  exec true t (t_point t) s = Some (s1, Parked p) ->
  advance_store false (at_point t p) s1 = advance_store false t s.
Proof.
  intros Hsync. unfold advance_store. cbn [t_point at_point]. rewrite exec_at_point.
  rewrite (exec_resume t _ (t_point t) s (Nat.le_refl _)), Hsync.
  destruct (exec_total false t p s1) as [[s2 st] Hsome]. rewrite Hsome.
  by destruct st.
Qed.

Lemma suspended_resume t ts s :
  suspended (option_list (snd (advance_store true t s)) ++ ts) (fst (advance_store true t s))
  = suspended (t :: ts) s.
Proof.
  cbn [suspended]. unfold advance_store at 1 2.
  destruct (exec true t (t_point t) s) as [[s1 [p|c]]|] eqn:Hsync; cbn [fst snd].
  - change (option_list (Some ?x) ++ ?l) with (x :: l). cbn [suspended].
    by rewrite (advance_store_resume _ _ _ _ Hsync).
  - unfold advance_store.
    rewrite (exec_resume t _ (t_point t) s (Nat.le_refl _)), Hsync. reflexivity.
  - by destruct (exec_total true t (t_point t) s) as [? Hsome]; rewrite Hsome in Hsync.
Qed.

Lemma exec_parked t pt0 s s' pt :
  exec false t pt0 s = Some (s', Parked pt) -> step t pt s' = (s', Blocked).
Proof.
  intros Hexec.
  destruct (run_invariant (fun _ _ => True) false t _ (fun _ _ _ _ _ _ => I) _ _ _ _ I Hexec)
    as (pt1 & s1 & _ & [[Hstep ->]|(_ & [=] & _)]).
  by pose proof (step_blocked _ _ _ _ Hstep) as ->.
Qed.

Lemma stuck_all (ts : list (Task World)) s :
  Forall (fun t => advance_store false t s = (s, Some t)) ts ->
  run_all ts s = s /\ suspended ts s = ts.
Proof.
  induction 1 as [|t ts Ht _ [IH1 IH2]]; [done|].
  rewrite run_all_cons. cbn [suspended]. rewrite Ht. cbn [fst snd option_list].
  by rewrite IH1, IH2.
Qed.

(** A task the event loop left suspended is not resumed by what the tasks
    after it did. *)
Lemma parked_stays seed first rest (w : World) j t t' :
  let ts := all_tasks seed first rest in
  let s0 := init_store seed w in
  ts !! j = Some t ->
  snd (advance_store false t (before ts s0 j)) = Some t' ->
  advance_store false t' (run_all ts s0) = (run_all ts s0, Some t').
Proof.
  cbv zeta. intros Ht Hpark.
  set (ts := all_tasks seed first rest) in *. set (s0 := init_store seed w) in *.
  assert (Hj : (j < S (length rest))%nat).
  { apply lookup_lt_Some in Ht. unfold ts in Ht. by rewrite all_tasks_length in Ht. }
  pose proof (before_S _ s0 _ _ Ht) as HS.
  unfold advance_store in Hpark, HS.
  destruct (exec false t (t_point t) (before ts s0 j)) as [[s' [pt|c]]|] eqn:Hexec;
    cbn [fst snd] in Hpark, HS; [|done|].
  2: { by destruct (exec_total false t (t_point t) (before ts s0 j)) as [? Hsome];
         rewrite Hsome in Hexec. }
  injection Hpark as <-. subst s'.
  pose proof (exec_parked _ _ _ _ _ Hexec) as Hstep.
  assert (Hfinal : step t pt (run_all ts s0) = (run_all ts s0, Blocked)).
  { destruct pt as [|a|a r|a x|a]; cbn [step] in Hstep |- *; cbv zeta in Hstep |- *.
    - destruct (t_owner t) as [i|p i] eqn:Ho; [done|].
      destruct (all_tasks_lookup _ _ _ _ _ Ht) as (_ & _ & _ & _ & _ & Hown).
      destruct j as [|j']; destruct Hown as [Ho' _]; rewrite Ho in Ho'; [done|].
      injection Ho' as -> _.
      destruct (before_frame seed first rest w (S (S j')) (S (length rest))
                  ltac:(lia) ltac:(lia)) as [Hfr _].
      fold ts s0 in Hfr.
      assert (Hfin : run_all ts s0 = before ts s0 (S (length rest))).
      { rewrite <- (before_all ts s0). unfold ts. by rewrite all_tasks_length. }
      rewrite Hfin, Hfr by lia.
      destruct (promises (before ts s0 (S (S j'))) !! j') as [[]|]; done.
    - destruct (a <=? _); [|done].
      destruct (call t a (write_back t (before ts s0 (S j)))) as [r s2]. by destruct r.
    - by destruct (race _ _ r).
    - destruct (_ && _); [|done]. by destruct (0 <? _).
    - done. }
  unfold advance_store. cbn [t_point at_point]. rewrite exec_at_point, exec_unfold, Hfinal.
  reflexivity.
Qed.

Lemma suspended_stay seed first rest (w : World) :
  let ts := all_tasks seed first rest in
  let s0 := init_store seed w in
  forall l j, drop j ts = l ->
  Forall (fun t => advance_store false t (run_all ts s0) = (run_all ts s0, Some t))
    (suspended l (before ts s0 j)).
Proof.
  cbv zeta. induction l as [|t l IH]; intros j Hdrop; [constructor|].
  assert (Ht : all_tasks seed first rest !! j = Some t).
  { rewrite <- (Nat.add_0_r j), <- lookup_drop, Hdrop. done. }
  cbn [suspended]. apply Forall_app. split.
  - destruct (advance_store false t _).2 as [t'|] eqn:Hp; [|constructor].
    repeat constructor. by eapply parked_stays.
  - rewrite <- (before_S _ _ _ _ Ht). apply IH.
    replace (S j) with (j + 1)%nat by lia. by rewrite <- drop_drop, Hdrop.
Qed.

Lemma build_eq seed first rest (w : World) :
  build seed first rest w =
  (mkChainsImpl (length rest) (seed_index seed + 1 + Z.of_nat (length rest)),
   mkEngine (built_store seed first w) (built_tasks seed first rest w) (S (length rest))).
Proof.
  unfold build.
  assert (new_Chains seed w =
          (mkChainsInitImpl (seed_index seed), mkEngine (init_store seed w) [] O)) as ->
    by (destruct seed; reflexivity).
  unfold ChainsInitImpl_chain, advance. cbn [store tasks next_promise resultIndex fst snd].
  fold (first_task seed first). unfold built_store, built_tasks.
  destruct (advance_store true (first_task seed first) (init_store seed w))
    as [s1 parked] eqn:Hfirst.
  rewrite chain_all_spec. cbn [store tasks next_promise asyncTask index t_promise fst snd app].
  f_equal. f_equal. destruct rest; cbn [length first_task t_promise]; lia.
Qed.

(** *** The number of calls of a step *)

Lemma times_called_app k (tr1 tr2 : list Event) :
  times_called k (tr1 ++ tr2) = (times_called k tr1 + times_called k tr2)%nat.
Proof. unfold times_called. by rewrite List.filter_app, length_app. Qed.

Lemma times_called_other k (tr : list Event) :
  Forall (fun ev => ev_task ev <> k) tr -> times_called k tr = 0%nat.
Proof.
  unfold times_called. induction 1 as [|ev tr Hev _ IH]; [done|].
  cbn [List.filter]. destruct ev as [n a seen r| | |]; cbn [is_call_of]; try done.
  cbn in Hev. by rewrite bool_decide_eq_false_2.
Qed.

Lemma times_called_schedule k (tr : list Event) :
  (times_called k tr <= length (List.filter (fun b => if b is Attempt then true else false)
                                  (schedule tr)))%nat.
Proof.
  induction tr as [|ev tr IH]; [done|].
  change (ev :: tr) with ([ev] ++ tr).
  rewrite times_called_app, schedule_app, List.filter_app, length_app.
  enough (times_called k [ev] <=
          length (List.filter (fun b => if b is Attempt then true else false)
                    (schedule [ev])))%nat by lia.
  destruct ev as [n a seen r| | |]; cbn; try lia.
  destruct (bool_decide (n = k)); cbn; lia.
Qed.

Lemma attempts_with_retries_count delay n :
  length (List.filter (fun b => if b is Attempt then true else false)
            (attempts_with_retries delay n)) = S n.
Proof.
  induction n as [|n IH]; [done|].
  rewrite attempts_with_retries_S. cbn [List.filter length].
  rewrite List.filter_app, length_app, IH. by destruct (0 <? delay).
Qed.

Lemma exec_paced t s s' st :
  0 <= p_maxRetries (t_options t) ->
  exec false t (LoopHead 0) s = Some (s', st) ->
  exists evs n,
    trace s' = trace s ++ evs /\
    schedule evs = attempts_with_retries (p_retryDelay (t_options t)) n /\
    Z.of_nat n <= p_maxRetries (t_options t).
Proof.
  intros HM Hexec.
  assert (H0 : paced t s (LoopHead 0) s).
  { exists []. rewrite app_nil_r. split; [done|]. by left. }
  destruct (run_invariant (paced t s) false t _ (paced_step t s) _ _ _ _ H0 Hexec)
    as (pt1 & s1 & (evs & Htr & HI) & Hlast).
  assert (Hend : exists nx, step t pt1 s1 = (s', nx) /\ s' = s1 /\ forall pt', nx <> Goto pt').
  { destruct st as [p|c].
    - destruct Hlast as [[Hb _]|(_ & [=] & _)].
      eexists. split; [exact Hb|]. split; [by apply step_blocked in Hb|done].
    - eexists. split; [exact Hlast|]. split; [by apply step_settled in Hlast|done]. }
  clear Hlast. destruct Hend as (nx & Hstep & -> & Hnx).
  destruct pt1 as [|a|a r|a x|a]; cbn [step] in Hstep; cbv zeta in Hstep.
  - done.
  - destruct (Z.leb_spec a (p_maxRetries (t_options t))) as [Hle|Hgt].
    + exfalso. destruct (call t a (write_back t s1)) as [r' s2'].
      destruct r'; eapply Hnx; symmetry; exact (f_equal snd Hstep).
    + destruct HI as [[-> _]|[Ha _]]; lia.
  - destruct HI as [Ha Hsch]. exists evs, (Z.to_nat a). repeat split; try done. lia.
  - destruct HI as [Ha Hsch]. exists evs, (Z.to_nat a). repeat split; try done. lia.
  - exfalso. eapply Hnx; symmetry; exact (f_equal snd Hstep).
Qed.

Lemma exec_times_called t s s' st :
  exec false t (LoopHead 0) s = Some (s', st) ->
  exists evs,
    trace s' = trace s ++ evs /\
    (times_called (t_promise t) evs <= Z.to_nat (p_maxRetries (t_options t) + 1))%nat.
Proof.
  intros Hexec. destruct (Z.le_gt_cases 0 (p_maxRetries (t_options t))) as [HM|HM].
  - destruct (exec_paced _ _ _ _ HM Hexec) as (evs & n & Htr & Hsch & Hn).
    exists evs. split; [done|].
    pose proof (times_called_schedule (t_promise t) evs) as Hle.
    rewrite Hsch, attempts_with_retries_count in Hle. lia.
  - rewrite exec_unfold in Hexec. cbn [step] in Hexec. cbv zeta in Hexec.
    destruct (Z.leb_spec 0 (p_maxRetries (t_options t))); [lia|].
    injection Hexec as <- _. exists []. rewrite app_nil_r. split; [done|]. cbn. lia.
Qed.

Lemma advance_times_called seed first rest (w : World) j t :
  let ts := all_tasks seed first rest in
  let s0 := init_store seed w in
  ts !! j = Some t ->
  exists evs,
    trace (before ts s0 (S j)) = trace (before ts s0 j) ++ evs /\
    (times_called j evs <= Z.to_nat (p_maxRetries (t_options t) + 1))%nat.
Proof.
  cbv zeta. intros Ht. rewrite (before_S _ _ _ _ Ht).
  set (s := before (all_tasks seed first rest) (init_store seed w) j).
  destruct (all_tasks_lookup _ _ _ _ _ Ht) as (Hid & step & _ & _ & _ & Hown).
  assert (Hsplit : forall s' st evs,
            exec false t (t_point t) s = Some (s', st) ->
            trace s' = trace s ++ evs ->
            (times_called j evs <= Z.to_nat (p_maxRetries (t_options t) + 1))%nat ->
            exists evs', trace (fst (advance_store false t s)) = trace s ++ evs' /\
              (times_called j evs' <= Z.to_nat (p_maxRetries (t_options t) + 1))%nat).
  { intros s' st evs Hex Htr Hle. unfold advance_store. rewrite Hex.
    destruct st as [p|c]; cbn [fst settle log trace].
    - by exists evs.
    - exists (evs ++ [EvSettle (t_promise t) c]). rewrite Htr, <- app_assoc.
      split; [done|]. rewrite times_called_app. cbn. lia. }
  destruct (exec_total false t (t_point t) s) as [[s' st] Hex].
  assert (Hloop : exec false t (t_point t) s = exec false t (LoopHead 0) s \/ s' = s).
  { destruct j as [|i]; destruct Hown as [Ho Hpt]; [left; by rewrite Hpt|].
    rewrite Hpt, (exec_await_previous _ _ _ _ _ Ho) in Hex |- *.
    destruct (promises s !! i) as [[v|error]|]; [by left|right..]; by injection Hex. }
  destruct Hloop as [Hloop| ->].
  - pose proof Hex as Hex'. rewrite Hloop in Hex'.
    destruct (exec_times_called _ _ _ _ Hex') as (evs & Htr & Hle).
    rewrite Hid in Hle. by eapply Hsplit.
  - eapply (Hsplit s st []); [done|by rewrite app_nil_r|]. cbn. lia.
Qed.

(** *** The seed *)

Lemma exec_seed_kept seed t s0 sync pt s' st :
  linked seed t ->
  seed <> VUndefined ->
  history s0 !! key 1 = Some seed ->
  exec sync t pt s0 = Some (s', st) ->
  history s' !! key 1 = Some seed /\
  exists evs, trace s' = trace s0 ++ evs /\
    each_call (fun _ _ seen _ => seen !! key 1 = Some seed) evs.
Proof.
  intros Hlink Hseed Hh Hexec.
  set (P := fun s : Store World => history s !! key 1 = Some seed /\
     exists evs, trace s = trace s0 ++ evs /\
       each_call (fun _ _ seen _ => seen !! key 1 = Some seed) evs).
  assert (H0 : P s0).
  { split; [done|]. exists []. rewrite app_nil_r. split; [done|]. constructor. }
  revert H0. apply (exec_preserves P t) with (sync := sync) (pt := pt) (st := st);
    [| | |exact Hexec].
  - intros s (Hs & evs & Htr & Hq). unfold P, write_back. unfold linked in Hlink.
    destruct (t_owner t) as [|p i]; [by split; [|exists evs]|].
    destruct (0 <? i); [|by split; [|exists evs]].
    destruct (promises s !! p) as [[v|]|]; try (by split; [|exists evs]).
    unfold log. cbn [history trace]. split.
    + rewrite lookup_insert_ne; [done|]. intros Hk%key_inj.
      destruct seed; cbn in Hlink; try done; lia.
    + eexists. rewrite Htr, <- app_assoc. split; [reflexivity|].
      apply each_call_app; [done|]. by repeat constructor.
  - intros a s (Hs & evs & Htr & Hq). unfold P. rewrite call_eq. cbv zeta. cbn [snd history trace].
    split; [done|]. eexists. rewrite Htr, <- app_assoc. split; [reflexivity|].
    apply each_call_app; [done|]. by repeat constructor.
  - intros ms s (Hs & evs & Htr & Hq). unfold P, log. cbn [history trace]. split; [done|].
    eexists. rewrite Htr, <- app_assoc. split; [reflexivity|].
    apply each_call_app; [done|]. by repeat constructor.
Qed.

End Machine.

End ChainsFacts.

(** * Properties of the Tasks runner *)

Module TasksFacts.
Import Tasks.

(** *** Traces in which nothing starts after a halt *)

Lemma quiet_app l1 l2 : quiet l1 -> quiet l2 -> quiet (l1 ++ l2).
Proof. unfold quiet. intros. by apply Forall_app. Qed.

Lemma well_halted_app l1 l2 :
  well_halted l1 -> well_halted l2 ->
  (Exists (fun ev => halts ev = true) l1 -> quiet l2) ->
  well_halted (l1 ++ l2).
Proof.
  induction l1 as [|ev l1 IH]; intros H1 H2 Hex; [done|].
  destruct H1 as [Hq H1]. split.
  - intros Hev. apply quiet_app; [by apply Hq|]. apply Hex. by apply Exists_cons_hd.
  - apply IH; [done|done|]. intros H. apply Hex. by apply Exists_cons_tl.
Qed.

Lemma well_halted_split pre ev post :
  well_halted (pre ++ ev :: post) -> halts ev = true -> quiet post.
Proof.
  induction pre as [|x pre IH]; simpl.
  - intros [Hq _] Hev. by apply Hq.
  - intros [_ H]. by apply IH.
Qed.

(** *** What a run of the runner leaves *)

Lemma leaves_refl st : leaves st [] st.
Proof.
  split; [done|]. split; [by rewrite app_nil_r|]. split; [done|].
  split; [by intros H%Exists_nil|done].
Qed.

Lemma leaves_trans st1 new1 st2 new2 st3 :
  leaves st1 new1 st2 -> leaves st2 new2 st3 -> leaves st1 (new1 ++ new2) st3.
Proof.
  intros (Ht1 & Htr1 & Hm1 & Hs1 & Hw1) (Ht2 & Htr2 & Hm2 & Hs2 & Hw2).
  split; [congruence|]. split; [by rewrite Htr2, Htr1, app_assoc|].
  split; [|split].
  - intros Hst. destruct (Hm1 Hst) as [-> Hst2]. by destruct (Hm2 Hst2) as [-> Hst3].
  - intros [H|H]%Exists_app; [|by apply Hs2]. apply Hm2. by apply Hs1.
  - apply well_halted_app; [done|done|]. intros H.
    destruct (Hm2 (Hs1 H)) as [-> _]. constructor.
Qed.

Lemma leaves_stop st : leaves st [] (stop st).
Proof.
  split; [done|]. split; [simpl; by rewrite app_nil_r|]. split; [done|].
  split; [by intros H%Exists_nil|done].
Qed.

Lemma run_script_leaves (executeNext : Value -> State -> option (Result * State)) :
  (forall v st r st', executeNext v st = Some (r, st') -> exists new, leaves st new st') ->
  forall s called st r called' st',
    run_script executeNext s called st = Some (r, called', st') ->
    exists new, leaves st new st'.
Proof.
  intros Hnext s. induction s as [|x|v k IHk h IHh|k IHk]; intros called st r called' st' Hrun;
    simpl in Hrun.
  - inversion Hrun; subst. exists []. apply leaves_refl.
  - inversion Hrun; subst. exists []. apply leaves_refl.
  - destruct (executeNext (default VUndefined v) st) as [[[|x] st1]|] eqn:Hex; [| |done].
    + destruct (Hnext _ _ _ _ Hex) as [new1 H1].
      destruct (IHk _ _ _ _ _ Hrun) as [new2 H2].
      exists (new1 ++ new2). by eapply leaves_trans.
    + destruct (Hnext _ _ _ _ Hex) as [new1 H1].
      destruct (IHh _ _ _ _ _ _ Hrun) as [new2 H2].
      exists (new1 ++ new2). by eapply leaves_trans.
  - destruct (IHk _ _ _ _ _ Hrun) as [new2 H2].
    exists ([] ++ new2). eapply leaves_trans; [apply leaves_stop|done].
Qed.

Lemma executeTask_leaves fuel : forall index param st r st',
  executeTask fuel index param st = Some (r, st') ->
  exists new, leaves st new st'.
Proof.
  induction fuel as [|fuel IH]; intros index param st r st' Hrun; [done|].
  simpl in Hrun.
  destruct ((length (tasks st) <=? index)%nat || shouldStop st) eqn:Hguard.
  { inversion Hrun; subst. exists []. apply leaves_refl. }
  apply orb_false_iff in Hguard as [_ Hstop].
  destruct (tasks st !! index) as [fn|]; [|inversion Hrun; subst; exists []; apply leaves_refl].
  destruct (run_script _ _ _ _) as [[[res called] st1]|] eqn:Hscript; [|done].
  apply (run_script_leaves _ (IH (S index))) in Hscript
    as (new1 & Ht & Htr & Hm & Hs & Hw).
  simpl in Ht, Htr, Hm.
  assert (Hlast : forall ev st2,
            is_start ev = false ->
            tasks st2 = tasks st1 -> trace st2 = trace st1 ->
            (halts ev = true -> shouldStop st2 = true) ->
            (shouldStop st1 = true -> shouldStop st2 = true) ->
            leaves st (Started index param :: new1 ++ [ev]) (log ev st2)).
  { intros ev st2 Hev Ht2 Htr2 Hh2 Hmono. split; [simpl; congruence|].
    split; [simpl; rewrite Htr2, Htr; simpl; by rewrite <- !app_assoc|].
    split; [by rewrite Hstop|]. split.
    - intros [H|[H|H]%Exists_app]%Exists_cons; [done| |].
      + apply Hmono. by apply Hs.
      + apply Exists_cons in H as [H|H%Exists_nil]; [|done]. by apply Hh2.
    - split; [done|]. apply well_halted_app; [done| |].
      + split; [constructor|done].
      + intros _. by repeat constructor. }
  destruct res as [|x]; inversion Hrun; subst; eexists.
  - apply Hlast; [done| | | |]; destruct called; try done.
  - apply Hlast; done.
Qed.

(** *** The runner terminates *)

Lemma run_script_total (T : list TaskFn)
    (executeNext : Value -> State -> option (Result * State)) :
  (forall v st, tasks st = T ->
     exists r st', executeNext v st = Some (r, st') /\ tasks st' = T) ->
  forall s called st, tasks st = T ->
    exists r called' st', run_script executeNext s called st = Some (r, called', st') /\
                          tasks st' = T.
Proof.
  intros Hnext s. induction s as [|x|v k IHk h IHh|k IHk]; intros called st Ht; simpl.
  - by exists Ok, called, st.
  - by exists (Err x), called, st.
  - destruct (Hnext (default VUndefined v) st Ht) as (r1 & st1 & -> & Ht1).
    destruct r1 as [|x]; [by apply IHk|by apply IHh].
  - by apply IHk.
Qed.

Lemma executeTask_total (T : list TaskFn) fuel : forall index param st,
  tasks st = T -> (1 <= fuel)%nat -> (length T < fuel + index)%nat ->
  exists r st', executeTask fuel index param st = Some (r, st') /\ tasks st' = T.
Proof.
  induction fuel as [|fuel IH]; intros index param st Ht Hfuel Hlen; simpl.
  - lia.
  - rewrite Ht. destruct (Nat.leb_spec (length T) index) as [|Hlt]; simpl.
    { by exists Ok, st. }
    destruct (shouldStop st); [by exists Ok, st|].
    destruct (T !! index) as [fn|]; [|by exists Ok, st].
    destruct (run_script_total T (executeTask fuel (S index))
                ltac:(intros v st0 Ht0; apply IH; [done|lia|lia])
                (fn param) false (log (Started index param) st) Ht)
      as (r & called & st1 & -> & Ht1).
    destruct r as [|x]; eexists _, _; (split; [reflexivity|]); by destruct called.
Qed.

(** *** Errors *)

Lemma executeTask_error fuel index param st x st' :
  executeTask fuel index param st = Some (Err x, st') ->
  exists pre, trace st' = pre ++ [Threw index x].
Proof.
  destruct fuel as [|fuel]; [done|]. simpl.
  destruct (_ || _); [done|]. destruct (tasks st !! index) as [fn|]; [|done].
  destruct (run_script _ _ _ _) as [[[[|y] called] st1]|]; [done| |done].
  intros [= -> <-]. by eexists.
Qed.

(** When no task catches the rejection of [next], a run that contains a
    throw rejects with what was thrown. *)
Lemma executeTask_uncaught (T : list TaskFn) fuel :
  (forall fn p, fn ∈ T -> uncaught (fn p)) ->
  forall index param st r st' new,
    tasks st = T ->
    executeTask fuel index param st = Some (r, st') ->
    trace st' = trace st ++ new ->
    forall j y, Threw j y ∈ new -> r = Err y.
Proof.
  intros HT. induction fuel as [|fuel IH]; intros index param st r st' new Ht Hrun Htr j y Hin;
    [done|].
  simpl in Hrun. destruct (_ || _).
  { inversion Hrun; subst. rewrite <- (app_nil_r (trace st')) in Htr at 1.
    apply app_inv_head in Htr as <-. by apply elem_of_nil in Hin. }
  destruct (tasks st !! index) as [fn|] eqn:Hfn.
  2: { inversion Hrun; subst. rewrite <- (app_nil_r (trace st')) in Htr at 1.
       apply app_inv_head in Htr as <-. by apply elem_of_nil in Hin. }
  assert (Hun : uncaught (fn param)).
  { apply HT. rewrite <- Ht. by eapply list_elem_of_lookup_2. }
  assert (Hscript : forall s called st0 r0 called' st1 new1,
            uncaught s -> tasks st0 = T ->
            run_script (executeTask fuel (S index)) s called st0 = Some (r0, called', st1) ->
            trace st1 = trace st0 ++ new1 ->
            forall j y, Threw j y ∈ new1 -> r0 = Err y).
  { clear -IH. intros s. induction s as [|x|v k IHk h _|k IHk];
      intros called st0 r0 called' st1 new1 Hun Ht0 Hrun Htr j y Hin; simpl in Hrun.
    - inversion Hrun; subst. rewrite <- (app_nil_r (trace st1)) in Htr at 1.
      apply app_inv_head in Htr as <-. by apply elem_of_nil in Hin.
    - inversion Hrun; subst. rewrite <- (app_nil_r (trace st1)) in Htr at 1.
      apply app_inv_head in Htr as <-. by apply elem_of_nil in Hin.
    - destruct Hun as [Hk Hh].
      destruct (executeTask fuel (S index) (default VUndefined v) st0)
        as [[r1 st2]|] eqn:Hex; [|done].
      destruct (executeTask_leaves _ _ _ _ _ _ Hex) as (new2 & Ht2 & Htr2 & _).
      destruct r1 as [|x].
      + destruct (run_script_leaves _ (executeTask_leaves fuel (S index)) _ _ _ _ _ _ Hrun)
          as (new3 & _ & Htr3 & _).
        rewrite Htr3, Htr2, <- app_assoc in Htr. apply app_inv_head in Htr as <-.
        apply elem_of_app in Hin as [Hin|Hin].
        * by pose proof (IH _ _ _ _ _ _ Ht0 Hex Htr2 _ _ Hin).
        * eapply (IHk _ _ _ _ _ _ Hk (eq_trans Ht2 Ht0) Hrun Htr3). exact Hin.
      + rewrite Hh in Hrun. simpl in Hrun. injection Hrun as <- _ <-.
        rewrite Htr2 in Htr. apply app_inv_head in Htr as <-.
        by eapply (IH _ _ _ _ _ _ Ht0 Hex Htr2).
    - eapply (IHk _ _ _ _ _ _ Hun _ Hrun); [|exact Hin]. exact Htr.
      Unshelve. done. }
  destruct (run_script _ _ _ _) as [[[r1 called] st1]|] eqn:Hrs; [|done].
  destruct (run_script_leaves _ (executeTask_leaves fuel (S index)) _ _ _ _ _ _ Hrs)
    as (new1 & _ & Htr1 & _).
  specialize (Hscript (fn param) false (log (Started index param) st) _ _ _ new1
                Hun Ht Hrs Htr1).
  simpl in Htr1. rewrite <- app_assoc in Htr1.
  assert (Hnew : exists ev, new = Started index param :: new1 ++ [ev] /\
                            (forall j y, ev = Threw j y -> r = Err y) /\
                            (r = Ok -> r1 = Ok) /\ (forall x, r = Err x -> r1 = Err x)).
  { destruct r1 as [|x]; injection Hrun as <- <-; simpl in Htr.
    - exists (Returned index called). split; [|done].
      assert (Htr' : trace st1 ++ [Returned index called] = trace st ++ new)
        by (by destruct called).
      rewrite Htr1, <- app_assoc in Htr'. by apply app_inv_head in Htr' as <-.
    - exists (Threw index x). split; [|split; [by intros j0 y0 [= _ <-]|done]].
      rewrite Htr1, <- app_assoc in Htr. by apply app_inv_head in Htr as <-. }
  destruct Hnew as (ev & -> & Hev & Hok & Herr).
  apply elem_of_cons in Hin as [Hin|Hin]; [done|].
  apply elem_of_app in Hin as [Hin|Hin%list_elem_of_singleton].
  - specialize (Hscript _ _ Hin). destruct r as [|x]; [by rewrite Hok in Hscript|].
    by rewrite (Herr x eq_refl) in Hscript.
  - by eapply Hev.
Qed.

(** *** [next()] with no value *)

Lemma next_without_value fuel index k h called st r called' st' fn :
  shouldStop st = false ->
  tasks st !! S index = Some fn ->
  run_script (executeTask (S fuel) (S index)) (TryNext None k h) called st
    = Some (r, called', st') ->
  exists evs, trace st' = trace st ++ Started (S index) VUndefined :: evs.
Proof.
  intros Hstop Hfn Hrun. cbn [run_script default] in Hrun.
  destruct (executeTask (S fuel) (S index) VUndefined st) as [[r1 st1]|] eqn:Hex; [|done].
  assert (Hst1 : exists evs, trace st1 = trace st ++ Started (S index) VUndefined :: evs).
  { cbn [executeTask] in Hex.
    destruct (Nat.leb_spec (length (tasks st)) (S index)) as [Hle|_].
    { apply lookup_lt_Some in Hfn. lia. }
    unfold TaskFn in *. rewrite Hstop, Hfn in Hex. cbn [orb] in Hex.
    destruct (run_script _ _ _ _) as [[[r2 called2] st2]|] eqn:Hrs; [|done].
    destruct (run_script_leaves _ (executeTask_leaves fuel (S (S index))) _ _ _ _ _ _ Hrs)
      as (new1 & _ & Htr1 & _). simpl in Htr1.
    destruct r2 as [|x]; inversion Hex; subst; simpl.
    - exists (new1 ++ [Returned (S index) called2]).
      destruct called2; simpl; rewrite Htr1, <- !app_assoc; reflexivity.
    - exists (new1 ++ [Threw (S index) x]). rewrite Htr1, <- !app_assoc. reflexivity. }
  destruct Hst1 as [evs1 Htr1].
  assert (exists new2, trace st' = trace st1 ++ new2) as [new2 Htr2].
  { destruct r1 as [|x];
      destruct (run_script_leaves _ (executeTask_leaves (S fuel) (S index)) _ _ _ _ _ _ Hrun)
        as (new2 & _ & Htr2 & _); by exists new2. }
  exists (evs1 ++ new2). by rewrite Htr2, Htr1, <- app_assoc.
Qed.

(** *** What a run records does not depend on what was recorded before *)

Lemma run_script_uniform (executeNext : Value -> State -> option (Result * State)) :
  (forall v, uniform (executeNext v)) ->
  forall s called, uniform (run_script executeNext s called).
Proof.
  intros Hnext s.
  induction s as [|x|v k IHk h IHh|k IHk]; intros called st1 st2 r st1' Hrun Hal;
    cbn [run_script] in Hrun |- *.
  - injection Hrun as <- <-. exists st2, []. by rewrite !app_nil_r.
  - injection Hrun as <- <-. exists st2, []. by rewrite !app_nil_r.
  - destruct (executeNext (default VUndefined v) st1) as [[[|x] sta]|] eqn:Hex; [| |done].
    + destruct (Hnext _ _ _ _ _ Hex Hal) as (stb & new1 & -> & Hal1 & Ha & Hb).
      destruct (IHk _ _ _ _ _ Hrun Hal1) as (st2' & new2 & -> & Hal2 & Ha2 & Hb2).
      exists st2', (new1 ++ new2). rewrite Ha2, Hb2, Ha, Hb, <- !app_assoc. done.
    + destruct (Hnext _ _ _ _ _ Hex Hal) as (stb & new1 & -> & Hal1 & Ha & Hb).
      destruct (IHh _ _ _ _ _ _ Hrun Hal1) as (st2' & new2 & -> & Hal2 & Ha2 & Hb2).
      exists st2', (new1 ++ new2). rewrite Ha2, Hb2, Ha, Hb, <- !app_assoc. done.
  - assert (Hal' : alike (stop st1) (stop st2)) by (destruct Hal; by split).
    destruct (IHk _ _ _ _ _ Hrun Hal') as (st2' & new2 & -> & Hal2 & Ha2 & Hb2).
    by exists st2', new2.
Qed.

Lemma executeTask_uniform fuel : forall index param, uniform (executeTask fuel index param).
Proof.
  induction fuel as [|fuel IH]; intros index param st1 st2 r st1' Hrun Hal; [done|].
  cbn [executeTask] in Hrun |- *. destruct Hal as [Ht Hs]. rewrite <- Ht, <- Hs.
  destruct ((length (tasks st1) <=? index)%nat || shouldStop st1).
  { injection Hrun as <- <-. exists st2, []. by rewrite !app_nil_r. }
  destruct (tasks st1 !! index) as [fn|].
  2: { injection Hrun as <- <-. exists st2, []. by rewrite !app_nil_r. }
  destruct (run_script _ _ _ (log (Started index param) st1))
    as [[[res called] sta]|] eqn:Hscript; [|done].
  assert (Hal0 : alike (log (Started index param) st1) (log (Started index param) st2))
    by done.
  destruct (run_script_uniform _ (IH (S index)) _ _ _ _ _ _ Hscript Hal0)
    as (stb & new & -> & [Ht1 Hs1] & Ha & Hb).
  cbn [log trace] in Ha, Hb.
  destruct res as [|x]; injection Hrun as <- <-; eexists _, (Started index param :: new ++ [_]);
    (split; [reflexivity|]).
  - destruct called; cbn [log stop tasks shouldStop trace]; rewrite Ha, Hb, <- !app_assoc;
      repeat split; done.
  - cbn [log stop tasks shouldStop trace]; rewrite Ha, Hb, <- !app_assoc;
      repeat split; done.
Qed.

(** *** Tasks that pass a value on *)

Lemma addTask_all (fns : list TaskFn) : forall this,
  foldl addTask this fns = mkState (tasks this ++ fns) (shouldStop this) (trace this).
Proof.
  induction fns as [|fn fns IH]; intros this; cbn [foldl].
  - rewrite app_nil_r. by destruct this.
  - rewrite IH. cbn [addTask tasks shouldStop trace]. by rewrite <- app_assoc.
Qed.

Lemma forward_from (values : list (Value -> option Value)) :
  forall (done : list (Value -> option Value)) fuel param tr,
  (length values < fuel)%nat ->
  let T := forward <$> (done ++ values) in
  let i := length done in
  executeTask fuel i param (mkState T false tr) =
  Some (Ok, mkState T false
              (tr ++ imap (fun j p => Started (i + j) p) (received values param)
                  ++ reverse (imap (fun j _ => Returned (i + j) true) values))).
Proof.
  induction values as [|value values IH]; intros done fuel param tr Hfuel; cbv zeta.
  - destruct fuel as [|fuel]; [cbn in Hfuel; lia|]. cbn [executeTask tasks].
    rewrite length_fmap, app_nil_r, Nat.leb_refl. cbn. by rewrite app_nil_r.
  - destruct fuel as [|fuel]; [cbn in Hfuel; lia|]. cbn [executeTask tasks shouldStop].
    rewrite length_fmap, length_app. cbn [length].
    destruct (Nat.leb_spec (length done + S (length values)) (length done)); [lia|].
    cbn [orb]. rewrite list_lookup_fmap, lookup_app_r, Nat.sub_diag by lia.
    cbn [lookup list_lookup fmap option_fmap option_map forward Next run_script log
         tasks shouldStop trace].
    specialize (IH (done ++ [value]) fuel (default VUndefined (value param))
                  (tr ++ [Started (length done) param])).
    cbv zeta in IH. rewrite <- app_assoc, length_app in IH. cbn [app length] in IH.
    replace (length done + 1)%nat with (S (length done)) in IH by lia.
    unfold log at 1. cbn [tasks shouldStop trace].
    rewrite IH by (cbn in Hfuel; lia). cbn [run_script log tasks shouldStop trace].
    unfold log. cbn [tasks shouldStop trace].
    do 3 f_equal. rewrite <- !app_assoc. f_equal.
    cbn [received imap]. rewrite reverse_cons, Nat.add_0_r. cbn [app]. f_equal.
    f_equal; [|f_equal].
    + apply imap_ext. intros j p _. cbn. f_equal. lia.
    + f_equal. apply imap_ext. intros j p _. cbn. f_equal. lia.
Qed.

(** *** A stopped runner *)

Lemma executeTask_unfold fuel index param st :
  executeTask (S fuel) index param st =
  if (length (tasks st) <=? index)%nat || shouldStop st then Some (Ok, st)
  else
    match tasks st !! index with
    | None => Some (Ok, st)
    | Some fn =>
        match run_script (executeTask fuel (S index)) (fn param) false
                (log (Started index param) st) with
        | Some (Err error, _, st) => Some (Err error, log (Threw index error) (stop st))
        | Some (Ok, isNextCalled, st) =>
            Some (Ok, log (Returned index isNextCalled)
                        (if isNextCalled then st else stop st))
        | None => None
        end
    end.
Proof. reflexivity. Qed.

Lemma stop_stopped st : shouldStop st = true -> stop st = st.
Proof. destruct st as [T b tr]. cbn. by intros ->. Qed.

Lemma run_script_stopped fuel index s : forall called st,
  shouldStop st = true ->
  exists r called',
    run_script (executeTask (S fuel) index) s called st = Some (r, called', st).
Proof.
  induction s as [|x|v k IHk h IHh|k IHk]; intros called st Hstop; cbn [run_script].
  - by eexists _, _.
  - by eexists _, _.
  - cbn [executeTask]. rewrite Hstop, orb_true_r. by apply IHk.
  - rewrite (stop_stopped _ Hstop). by apply IHk.
Qed.

(** *** Tasks that catch what [next] rejects with *)

Lemma run_script_never_throws (executeNext : Value -> State -> option (Result * State)) s :
  forall called st r called' st',
  never_throws s ->
  run_script executeNext s called st = Some (r, called', st') -> r = Ok.
Proof.
  induction s as [|x|v k IHk h IHh|k IHk]; intros called st r called' st' Hs Hrun;
    cbn [run_script never_throws] in Hrun, Hs.
  - by injection Hrun as <- _ _.
  - done.
  - destruct Hs as [Hk Hh].
    destruct (executeNext (default VUndefined v) st) as [[[|x] st1]|]; [| |done].
    + by eapply IHk.
    + by eapply IHh.
  - by eapply IHk.
Qed.

Lemma executeTask_never_throws fuel index param st r st' :
  (forall fn, tasks st !! index = Some fn -> never_throws (fn param)) ->
  executeTask fuel index param st = Some (r, st') -> r = Ok.
Proof.
  intros Hfn Hrun. destruct fuel as [|fuel]; [done|].
  rewrite executeTask_unfold in Hrun.
  destruct (_ || _); [by injection Hrun as <- _|].
  destruct (tasks st !! index) as [fn|]; [|by injection Hrun as <- _].
  destruct (run_script _ _ _ _) as [[[res called] st1]|] eqn:Hscript; [|done].
  apply run_script_never_throws in Hscript as ->; [|by apply Hfn].
  by injection Hrun as <- _.
Qed.

End TasksFacts.

Module TasksProps.
Import Tasks TasksFacts.



(** What that run does. *)
Example tasks_run :
  invoke (addTask (addTask (addTask new_Tasks Examples.pass_nothing)
                     Examples.do_nothing) Examples.throw_boom)
  = Some (Ok, mkState [Examples.pass_nothing; Examples.do_nothing; Examples.throw_boom] true
                [Started 0 VUndefined; Started 1 VUndefined;
                 Returned 1 false; Returned 0 true]).
Proof. reflexivity. Qed.

End TasksProps.

Module ChainsProps.
Import Chains ChainsFacts.

(** C10: [invoke()] on a builder to which no step was chained, with or
    without a seed, resolves to [undefined]; it neither rejects nor changes
    anything. *)
Theorem init_invoke_undefined {World : Type} (seed : Value) (w : World) :
  let '(b, e) := new_Chains seed w in
  ChainsInitImpl_invoke b e = (Some (Return VUndefined), e).
Proof. unfold new_Chains. destruct seed; reflexivity. Qed.

(** C5: a failure with [retryWhen] a string [S].  For [S] other than
    ["timeout"] the failure matches exactly when the message of the
    normalized error contains [S]; for ["timeout"] it matches exactly when
    the error is a [TimeoutError], whatever its message: every
    [TimeoutError] matches and no plain [Error] does.  With retries left,
    the step is run again exactly when the failure matches. *)
Theorem retryWhen_string {World : Type} (S : string) (error : Error) :
  (S <> "timeout" ->
     shouldRetry error (Some (RwString S)) = true <->
     exists pre post, err_message error = pre +:+ S +:+ post) /\
  shouldRetry error (Some (RwString "timeout")) = instanceof error CTimeoutError /\
  (forall timeout step,
     shouldRetry (new_TimeoutError timeout step) (Some (RwString "timeout")) = true) /\
  (forall message,
     shouldRetry (new_Error message) (Some (RwString "timeout")) = false) /\
  (forall (t : Task World) attempt x s,
     p_retryWhen (t_options t) = Some (RwString S) ->
     attempt < p_maxRetries (t_options t) ->
     retried (step t (Caught attempt x) s) =
     shouldRetry (normalizeError x) (Some (RwString S))).
Proof.
  split; [|split; [|split; [|split]]].
  - intros HS. rewrite <- JSFacts.includes_substring.
    unfold shouldRetry. destruct S as [|a S'].
    + by destruct (err_message error).
    + by rewrite bool_decide_eq_false_2.
  - reflexivity.
  - reflexivity.
  - intros m. unfold shouldRetry. simpl. by rewrite JSFacts.instanceof_new_Error.
  - intros t attempt x s Hrw Hlt. unfold step. cbv zeta. rewrite Hrw.
    destruct (Z.ltb_spec attempt (p_maxRetries (t_options t))); [|lia].
    rewrite andb_true_l.
    destruct (shouldRetry (normalizeError x) (Some (RwString S))); [|reflexivity].
    by destruct (0 <? _).
Qed.












(** C6: the step number of the [TimeoutError] of each step of a chain, in
    order: the first step reports its own position; every later step
    reports the position of the step before it.  In
    [new Chains().chain(() => 10).chain(slow, { timeout: 100 })] the second
    step times out and [invoke()] rejects with a [TimeoutError] that carries
    the timeout 100 and the step number 1. *)
Theorem timeout_step_numbers :
  (forall (World : Type) (seed : Value) (first : StepFn World * option ChainOptions)
          (rest : list (StepFn World * option ChainOptions)),
     map (fun t => timeout_step (t_owner t)) (all_tasks seed first rest)
     = (seed_index seed + 1)
         :: map (fun j => seed_index seed + 1 + Z.of_nat j) (seq 0 (length rest))) /\
  fst (chains VUndefined (Examples.return_10, None)
         [(Examples.done_after_500, Some Examples.timeout_100)] tt)
  = Some (Throw (new_TimeoutError 100 (Some 1))) /\
  err_message (new_TimeoutError 100 (Some 1)) = "Operation timeout at step 1: exceeded 100ms".
Proof.
  split; [|split; by vm_compute].
  intros World seed first rest. unfold all_tasks.
  cbn [map first_task t_owner timeout_step]. f_equal. apply later_tasks_timeout_step.
Qed.

(** C7: [chain] on a fresh builder calls the step function before it
    returns, if [retry >= 0]: the call is the first event of the trace and
    the world is already what the function left.  After
    [new Chains().chain(() => { calls++; return 1 })], with no [invoke()],
    [calls] is 1. *)
Theorem chain_calls_first_step :
  (forall (World : Type) (seed : Value) (fn : StepFn World)
          (options : option ChainOptions) (w : World),
     let e := snd (ChainsInitImpl_chain (fst (new_Chains seed w)) fn options
                     (snd (new_Chains seed w))) in
     if 0 <=? p_maxRetries (parseChainOptions options) then
       exists evs,
         trace (store e) =
           EvCall 0 0 (entries seed []) (fst (fn (init_proxy_get (entries seed [])) w)) :: evs
     else trace (store e) = [EvSettle 0 (Return VUndefined)]) /\
  (let e := snd (ChainsInitImpl_chain (fst (new_Chains VUndefined O)) Examples.count_calls None
                   (snd (new_Chains VUndefined O))) in
   world (store e) = 1%nat /\
   trace (store e) = [EvCall 0 0 ∅ (Fulfils (VNumber 1) 0)]).
Proof.
  split; [|by vm_compute].
  intros World seed fn options w.
  assert (Hnew : new_Chains seed w =
            (mkChainsInitImpl (seed_index seed), mkEngine (init_store seed w) [] O))
    by (destruct seed; reflexivity).
  rewrite Hnew. cbn [fst snd]. unfold ChainsInitImpl_chain, advance. cbn [snd store next_promise tasks].
  set (t := mkTask _ _ _ _ _).
  assert (Hh : history (init_store seed w) = entries seed []) by by destruct seed.
  assert (Hw : world (init_store seed w) = w) by by destruct seed.
  assert (Ht : trace (init_store seed w) = []) by by destruct seed.
  unfold advance_store. cbn [t_point t].
  destruct (Z.leb_spec 0 (p_maxRetries (parseChainOptions options))) as [HM|HM].
  - rewrite exec_loop_head by exact HM.
    destruct (call t 0 (write_back t (init_store seed w))) as [r s2] eqn:Hcall.
    assert (Hs2 : trace s2 = [EvCall 0 0 (entries seed [])
                               (fst (fn (init_proxy_get (entries seed [])) w))]).
    { rewrite call_eq in Hcall. cbv zeta in Hcall. injection Hcall as <- <-.
      unfold write_back. cbn [t_owner t t_fn t_promise trace]. by rewrite Ht, Hh, Hw. }
    set (res := match r with
                | ThrowsSync error => exec true t (Caught 0 error) s2
                | _ => Some (s2, Parked (AwaitStep 0 r))
                end).
    assert (Hres : exists s3 st evs, res = Some (s3, st) /\ trace s3 = trace s2 ++ evs).
    { unfold res. destruct r as [v ms|x ms|x|];
        try (eexists s2, (Parked (AwaitStep 0 _)), []; by rewrite app_nil_r).
      destruct (exec_total true t (Caught 0 x) s2) as [[s3 st] Hrun].
      destruct (exec_reaches _ _ _ _ _ _ Hrun) as [_ (evs & Htr & _)].
      by exists s3, st, evs. }
    destruct Hres as (s3 & st & evs & Hres & Htr).
    change (match (r, s2) with
            | (ThrowsSync error, s) => exec true t (Caught 0 error) s
            | (r0, s) => if true then Some (s, Parked (AwaitStep 0 r0))
                         else exec true t (AwaitStep 0 r0) s
            end) with res.
    rewrite Hres. destruct st as [pt|c]; cbn [store settle log trace]; rewrite Htr, Hs2.
    + by exists evs.
    + by eexists.
  - rewrite exec_unfold. cbn [step].
    destruct (Z.leb_spec 0 (p_maxRetries (t_options t))) as [HM'|_]; [cbn [t_options t] in HM'; lia|].
    cbn [store settle log trace]. by rewrite Ht.
Qed.

End ChainsProps.


(** * Further properties of the Chains engine *)

Module RetryWhenProps.
Import Chains JSFacts.



End RetryWhenProps.

Module StepProps.
Import Chains ChainsFacts.

(** X3: a step with [retry >= 0] that has entered its loop, whatever its
    function does: when it has settled, or is left waiting for a call that
    never settles, it has made one attempt and [n <= retry] retries, with
    the pause of [retryDelay], if positive, before each retry and nowhere
    else. *)
Theorem attempts_paced {World : Type} (t : Task World) (s : Store World) :
  0 <= p_maxRetries (t_options t) ->
  exists s' st evs n,
    exec false t (LoopHead 0) s = Some (s', st) /\
    trace s' = trace s ++ evs /\
    schedule evs = attempts_with_retries (p_retryDelay (t_options t)) n /\
    Z.of_nat n <= p_maxRetries (t_options t).
Proof.
  intros HM. destruct (exec_total false t (LoopHead 0) s) as [[s' st] Hexec].
  destruct (exec_paced _ _ _ _ HM Hexec) as (evs & n & Htr & Hsch & Hn).
  by exists s', st, evs, n.
Qed.

(** A step with [retry: 2] and [retryDelay: 10] that always throws. *)
Lemma attempts_paced_witness :
  let t := first_task VUndefined (Examples.always_boom, Some Examples.retry_2_delay_10) in
  let s := init_store VUndefined tt in
  exists s' st evs n,
    exec false t (LoopHead 0) s = Some (s', st) /\
    trace s' = trace s ++ evs /\
    schedule evs = attempts_with_retries (p_retryDelay (t_options t)) n /\
    Z.of_nat n <= p_maxRetries (t_options t).
Proof.
  intros t s. apply (attempts_paced t s). simpl. lia.
Defined.

(** X4: the attempts of a step that has entered its loop are numbered
    0, 1, 2, ... and an attempt is followed by another one exactly when it
    failed (the function threw, its promise was rejected, or the timeout
    fired first), retries are left ([attempt < retry]) and the normalized
    error matches [retryWhen]. *)
Theorem retried_exactly_when {World : Type} (t : Task World) (s : Store World) :
  exists s' st evs rs,
    exec false t (LoopHead 0) s = Some (s', st) /\
    trace s' = trace s ++ evs /\
    attempts evs = numbered rs /\
    forall i r, rs !! i = Some r ->
      (S i < length rs)%nat <-> retriable t (Z.of_nat i) r.
Proof.
  destruct (exec_total false t (LoopHead 0) s) as [[s' st] Hexec].
  exists s', st.
  assert (H0 : retrying t s (LoopHead 0) s).
  { exists [], []. rewrite app_nil_r. by repeat split. }
  destruct (run_invariant (retrying t s) false t _ (retrying_step t s) _ _ _ _ H0 Hexec)
    as (pt1 & s1 & (evs & rs & Htr & Hat & HI) & Hlast).
  assert (Hend : exists nx, step t pt1 s1 = (s', nx) /\ s' = s1 /\ forall pt', nx <> Goto pt').
  { destruct st as [p|c].
    - destruct Hlast as [[Hb _]|(_ & [=] & _)].
      eexists. split; [exact Hb|]. split; [by apply step_blocked in Hb|done].
    - eexists. split; [exact Hlast|]. split; [by apply step_settled in Hlast|done]. }
  clear Hlast. destruct Hend as (nx & Hstep & -> & Hnx).
  exists evs, rs. split; [done|]. split; [done|]. split; [done|].
  assert (Hsnoc : forall rs' r0,
            rs = rs' ++ [r0] ->
            (forall i r, rs' !! i = Some r -> retriable t (Z.of_nat i) r) ->
            ~ retriable t (Z.of_nat (length rs')) r0 ->
            forall i r, rs !! i = Some r ->
              (S i < length rs)%nat <-> retriable t (Z.of_nat i) r).
  { intros rs' r0 -> Hall Hno i r Hl. rewrite length_app. cbn [length].
    apply lookup_app_Some in Hl as [Hl|[Hge Hl]].
    - split; [intros _; by apply Hall|]. apply lookup_lt_Some in Hl. lia.
    - apply list_lookup_singleton_Some in Hl as [Hi <-].
      assert (i = length rs') as -> by lia. split; [lia|done]. }
  destruct pt1 as [|a|a r|a x|a]; cbn [step] in Hstep; cbv zeta in Hstep.
  - done.
  - destruct HI as [Ha Hall].
    destruct (Z.leb_spec a (p_maxRetries (t_options t))) as [Hle|Hgt].
    + exfalso. destruct (call t a (write_back t s1)) as [r' s2'].
      destruct r'; eapply Hnx; symmetry; exact (f_equal snd Hstep).
    + destruct rs as [|r rs] using rev_ind; [done|].
      rewrite length_app in Ha. cbn in Ha.
      destruct (Hall (length rs) r) as [Hlt _]; [by rewrite lookup_app_r, Nat.sub_diag|].
      lia.
  - destruct HI as (rs' & -> & Ha & Hall). apply (Hsnoc rs' r eq_refl Hall).
    intros (_ & x & Hfail & _). unfold failure in Hfail.
    destruct (race _ _ r) eqn:Hrace.
    + destruct r; try done. unfold race in Hrace. by destruct (p_timeout _).
    + eapply Hnx; symmetry; exact (f_equal snd Hstep).
    + destruct r; try done. unfold race in Hrace. by destruct (p_timeout _).
  - destruct HI as (rs' & r & -> & Ha & Hfail & Hall). apply (Hsnoc rs' r eq_refl Hall).
    intros (Hlt & x' & Hfail' & Hsr). rewrite Hfail in Hfail'. injection Hfail' as <-.
    rewrite Hsr, andb_true_r in Hstep.
    destruct (Z.ltb_spec a (p_maxRetries (t_options t))); [|lia].
    destruct (0 <? _); eapply Hnx; symmetry; exact (f_equal snd Hstep).
  - exfalso. eapply Hnx; symmetry; exact (f_equal snd Hstep).
Qed.

(** X5: a step that has entered its loop either settles or is left waiting
    for ever, and it is left waiting only when it has no [timeout] and the
    promise of its last call never settles: with a [timeout], every step
    that starts settles. *)
Theorem settles_or_hangs {World : Type} (t : Task World) (s : Store World) :
  exists s' st,
    exec false t (LoopHead 0) s = Some (s', st) /\
    match st with
    | Done _ => True
    | Parked p =>
        p_timeout (t_options t) = None /\
        exists pre a seen,
          p = AwaitStep a Never /\
          trace s' = pre ++ [EvCall (t_promise t) a seen Never]
    end.
Proof.
  destruct (exec_total false t (LoopHead 0) s) as [[s' st] Hexec].
  exists s', st. split; [done|]. destruct st as [p|c]; [|done].
  assert (H0 : started t (LoopHead 0) s) by (by split).
  destruct (run_invariant (started t) false t _ (started_step t) _ _ _ _ H0 Hexec)
    as (pt1 & s1 & [Hne HI] & [[Hstep ->]|(_ & [=] & _)]).
  pose proof (step_blocked _ _ _ _ Hstep) as ->.
  destruct pt1 as [|a|a r|a x|a]; cbn [step] in Hstep; cbv zeta in Hstep.
  - done.
  - destruct (a <=? _); [|done].
    destruct (call t a (write_back t s1)) as [r s2]. by destruct r.
  - destruct (HI a r eq_refl) as (pre & seen & Htr).
    unfold race in Hstep. destruct (p_timeout (t_options t)) as [T|].
    + destruct r as [v ms|x ms|x|]; try done; by destruct (ms <=? _).
    + destruct r; try done. split; [done|]. by exists pre, a, seen.
  - destruct (_ && _); [|done]. by destruct (0 <? _).
  - done.
Qed.



End StepProps.

Module FlowProps.
Import Chains ChainsFacts.


(** X8: the two results proxies differ in their [get] trap: the one of
    [ChainsImpl.chain] answers [undefined] for a name that does not start
    with ['r'], the one of [ChainsInitImpl.chain] looks any own property
    up.  On every history a step function of a chain is ever given, the two
    traps agree on every property name. *)
Theorem proxies_agree {World : Type} (seed : Value)
    (first : StepFn World * option ChainOptions)
    (rest : list (StepFn World * option ChainOptions)) (w : World) :
  each_call (fun _ _ seen _ =>
               forall prop, proxy_get seen prop = init_proxy_get seen prop)
    (trace (store (snd (chains seed first rest w)))).
Proof.
  destruct (chains_store_inv seed first rest w) as ((Hform & _ & Hseen) & _).
  apply Forall_forall. intros [n a seen r| | |] Hin; try done. intros prop.
  unfold proxy_get, init_proxy_get.
  destruct (seen !! prop) as [v|] eqn:Hl; [|by destruct (startsWith_r prop)].
  pose proof (lookup_weaken _ _ _ _ Hl (Hseen _ _ _ _ Hin)) as Hh.
  destruct (Hform _ _ Hh) as [[-> _]|(i & -> & _)]; by rewrite startsWith_r_key.
Qed.

(** X9: a step with a negative [retry] whose turn has come (the step before
    it, if any, resolved) is skipped: its function is never called and its
    promise resolves to [undefined], not wrapped even under
    [withoutThrow]. *)
Theorem negative_retry_skips {World : Type} (seed : Value)
    (first : StepFn World * option ChainOptions)
    (rest : list (StepFn World * option ChainOptions)) (w : World)
    (k : nat) (step : StepFn World * option ChainOptions) :
  let s := store (snd (chains seed first rest w)) in
  (first :: rest) !! k = Some step ->
  p_maxRetries (parseChainOptions (snd step)) < 0 ->
  (forall j, k = S j -> exists v, promises s !! j = Some (Return v)) ->
  promises s !! k = Some (Return VUndefined) /\
  each_call (fun n _ _ _ => n <> k) (trace s).
Proof.
  cbv zeta. destruct (chains_run_all seed first rest w) as [_ ->].
  intros Hstep HM Hprev.
  set (ts := all_tasks seed first rest). set (s0 := init_store seed w).
  destruct (all_tasks_lookup_step seed _ _ _ _ Hstep) as [t Ht].
  destruct (all_tasks_lookup _ _ _ _ _ Ht) as (Hid & step' & Hstep' & _ & Hopt & _).
  rewrite Hstep in Hstep'. injection Hstep' as <-.
  pose proof (enters_loop seed first rest w k t Ht Hprev) as Henter.
  fold ts s0 in Henter.
  assert (Hex : exec false t (t_point t) (before ts s0 k) =
                Some (before ts s0 k, Done (Return VUndefined))).
  { rewrite Henter, exec_unfold. cbn [Chains.step]. cbv zeta. rewrite Hopt.
    by destruct (Z.leb_spec 0 (p_maxRetries (parseChainOptions (snd step)))); [lia|]. }
  assert (Hk : (k < S (length rest))%nat).
  { apply lookup_lt_Some in Ht. by rewrite all_tasks_length in Ht. }
  assert (Hnext : before ts s0 (S k) = settle t (Return VUndefined) (before ts s0 k)).
  { rewrite (before_S _ _ _ _ Ht). unfold advance_store. fold ts. by rewrite Hex. }
  destruct (before_frame seed first rest w (S k) (S (length rest)) ltac:(lia) ltac:(lia))
    as [Hfr (evs & Htr & Hevs)].
  fold ts s0 in Hfr, Htr.
  assert (Hfin : run_all ts s0 = before ts s0 (S (length rest))).
  { rewrite <- (before_all ts s0). unfold ts. by rewrite all_tasks_length. }
  rewrite Hfin. split.
  - rewrite Hfr by lia. rewrite Hnext. cbn [settle log promises].
    by rewrite Hid, lookup_insert_eq.
  - rewrite Htr, Hnext. cbn [settle log trace]. rewrite Hid.
    destruct (chain_inv_before seed first rest w k ltac:(lia)) as (_ & _ & Hlt & _).
    fold ts s0 in Hlt. apply each_call_app; [apply each_call_app|].
    + apply each_call_task. eapply Forall_impl; [exact Hlt|]. intros ev. cbn. lia.
    + by repeat constructor.
    + apply each_call_task. eapply Forall_impl; [exact Hevs|]. intros ev. cbn. lia.
Qed.

(** The chain [() => 10], [(r) => r.r2 + 5] with [{ retry: -1 }]. *)
Lemma negative_retry_skips_witness :
  let s := store (snd (chains VUndefined (Examples.return_10, None)
                         [(Examples.add_5_to_second, Some Examples.retry_minus_1)] tt)) in
  promises s !! 1%nat = Some (Return VUndefined) /\
  each_call (fun n _ _ _ => n <> 1%nat) (trace s).
Proof.
  apply (negative_retry_skips VUndefined (Examples.return_10, None)
           [(Examples.add_5_to_second, Some Examples.retry_minus_1)] tt 1%nat
           (Examples.add_5_to_second, Some Examples.retry_minus_1)).
  - reflexivity.
  - simpl. lia.
  - intros j [= <-]. exists (VNumber 10). by vm_compute.
Defined.

(** X10: when the promise of a step is still pending after the event loop
    has run (the step never settled), so is the promise of every step after
    it, [invoke()] never settles, and no step after it has been called, has
    written to the history or has settled. *)
Theorem pending_step_stalls {World : Type} (seed : Value)
    (first : StepFn World * option ChainOptions)
    (rest : list (StepFn World * option ChainOptions)) (w : World) (k : nat) :
  let r := chains seed first rest w in
  let s := store (snd r) in
  (k <= length rest)%nat ->
  promises s !! k = None ->
  fst r = None /\
  (forall j, (k <= j)%nat -> promises s !! j = None) /\
  Forall (fun ev => (ev_task ev <= k)%nat) (trace s).
Proof.
  cbv zeta. destruct (chains_run_all seed first rest w) as [-> ->].
  intros Hk Hp.
  destruct (pending_stays seed first rest w k Hk Hp) as [Hfin Hnone].
  split; [by apply Hnone|]. split; [done|]. rewrite Hfin.
  destruct (chain_inv_before seed first rest w (S k) ltac:(lia)) as (_ & _ & Hlt & _).
  eapply Forall_impl; [exact Hlt|]. intros ev. cbn. lia.
Qed.

(** The chain [() => new Promise(() => {})], [() => 10]. *)
Lemma pending_step_stalls_witness :
  let r := chains VUndefined (Examples.never_settles, None) [(Examples.return_10, None)] tt in
  let s := store (snd r) in
  fst r = None /\
  (forall j, (0 <= j)%nat -> promises s !! j = None) /\
  Forall (fun ev => (ev_task ev <= 0)%nat) (trace s).
Proof.
  apply (pending_step_stalls VUndefined (Examples.never_settles, None)
           [(Examples.return_10, None)] tt 0%nat).
  - simpl. lia.
  - by vm_compute.
Defined.

(** X11: [invoke()] only awaits: called again on the builder of a chain
    that has been invoked, it gives the same outcome and leaves the heap and
    the suspended tasks as they are; no step function is called again. *)
Theorem invoke_twice {World : Type} (seed : Value)
    (first : StepFn World * option ChainOptions)
    (rest : list (StepFn World * option ChainOptions)) (w : World) :
  let b := fst (build seed first rest w) in
  let r := chains seed first rest w in
  ChainsImpl_invoke b (snd r) = r.
Proof.
  cbv zeta. unfold chains. rewrite build_eq. cbn [fst].
  set (e := mkEngine _ _ _).
  assert (He : event_loop (event_loop e) = event_loop e).
  { unfold e. rewrite !event_loop_eq. cbn [store tasks next_promise].
    unfold built_store, built_tasks. rewrite advance_resume, suspended_resume.
    fold (all_tasks seed first rest).
    pose proof (suspended_stay seed first rest w _ 0%nat eq_refl) as Hst.
    cbv zeta in Hst. change (drop 0 ?l) with l in Hst.
    change (before ?ts ?s 0) with s in Hst.
    by destruct (stuck_all _ _ Hst) as [-> ->]. }
  unfold ChainsImpl_invoke. cbn [snd]. by rewrite He.
Qed.



(** X13: in every chain, the function of a step with [retry: r] is called
    at most [r + 1] times by the time the event loop has run, and not at
    all when [r] is negative, whatever the function and the other steps
    do. *)
Theorem calls_bounded {World : Type} (seed : Value)
    (first : StepFn World * option ChainOptions)
    (rest : list (StepFn World * option ChainOptions)) (w : World)
    (k : nat) (step : StepFn World * option ChainOptions) :
  (first :: rest) !! k = Some step ->
  (times_called k (trace (store (snd (chains seed first rest w))))
   <= Z.to_nat (p_maxRetries (parseChainOptions (snd step)) + 1))%nat.
Proof.
  destruct (chains_run_all seed first rest w) as [_ ->]. intros Hstep.
  set (ts := all_tasks seed first rest). set (s0 := init_store seed w).
  destruct (all_tasks_lookup_step seed _ _ _ _ Hstep) as [t Ht].
  destruct (all_tasks_lookup _ _ _ _ _ Ht) as (Hid & step' & Hstep' & _ & Hopt & _).
  rewrite Hstep in Hstep'. injection Hstep' as <-.
  assert (Hk : (k < S (length rest))%nat).
  { apply lookup_lt_Some in Ht. by rewrite all_tasks_length in Ht. }
  destruct (advance_times_called seed first rest w k t Ht) as (evs & Htr & Hle).
  destruct (before_frame seed first rest w (S k) (S (length rest)) ltac:(lia) ltac:(lia))
    as [_ (later & Hlater & Hge)].
  destruct (chain_inv_before seed first rest w k ltac:(lia)) as (_ & _ & Hlt & _).
  fold ts s0 in Htr, Hlater, Hlt.
  assert (Hfin : run_all ts s0 = before ts s0 (S (length rest))).
  { rewrite <- (before_all ts s0). unfold ts. by rewrite all_tasks_length. }
  rewrite Hfin, Hlater, Htr, !times_called_app, <- Hopt.
  rewrite (times_called_other k (trace _)), (times_called_other k later); [lia| |].
  - eapply Forall_impl; [exact Hge|]. intros ev. cbn. lia.
  - eapply Forall_impl; [exact Hlt|]. intros ev. cbn. lia.
Qed.

(** The second step of [() => 10], [() => { throw new Error('boom') }] with
    [{ retry: 2, retryDelay: 10 }]. *)
Lemma calls_bounded_witness :
  (times_called 1 (trace (store (snd (chains VUndefined (Examples.return_10, None)
       [(Examples.always_boom, Some Examples.retry_2_delay_10)] tt))))
   <= Z.to_nat (p_maxRetries (parseChainOptions (Some Examples.retry_2_delay_10)) + 1))%nat.
Proof.
  apply (calls_bounded VUndefined (Examples.return_10, None)
           [(Examples.always_boom, Some Examples.retry_2_delay_10)] tt 1%nat
           (Examples.always_boom, Some Examples.retry_2_delay_10)).
  reflexivity.
Defined.



End FlowProps.

(** * Further properties of the Tasks runner *)

Module RunnerProps.
Import Tasks TasksFacts.

(** X15: in a runner whose tasks each await [next(value(param))] and
    return, [invoke()] resolves; every task is started once, in the order
    in which the tasks were added; the first receives [undefined] and each
    other one what the task before it passed to [next] ([undefined] when it
    passed nothing); the [next] of the last task starts nothing; the tasks
    return in reverse order; and the runner is not stopped in the end. *)
Theorem values_are_passed_on (values : list (Value -> option Value)) :
  invoke (foldl addTask new_Tasks (forward <$> values)) =
  Some (Ok, mkState (forward <$> values) false
              (imap Started (received values VUndefined)
                 ++ reverse (imap (fun j _ => Returned j true) values))).
Proof.
  rewrite addTask_all. unfold invoke. cbn [new_Tasks tasks shouldStop trace app].
  rewrite length_fmap.
  exact (forward_from values [] (S (length values)) VUndefined [] ltac:(lia)).
Qed.

(** X16: once a task has called [finish()], the rest of its body runs in a
    stopped runner: whatever it does, and however often it calls [next],
    no task is started, no call of [next] rejects, and nothing changes but
    the stop flag.  So a task that calls [finish()] first leaves a trace of
    its own start and end only. *)
Theorem finish_stops (fuel index : nat) (k : Script) (called : bool) (st : State) :
  (exists r called',
     run_script (executeTask (S fuel) (S index)) (Finish k) called st
       = Some (r, called', stop st)) /\
  (forall fn param,
     tasks st !! index = Some fn ->
     fn param = Finish k ->
     shouldStop st = false ->
     exists r ev st',
       executeTask (S (S fuel)) index param st = Some (r, st') /\
       trace st' = trace st ++ [Started index param; ev] /\
       is_start ev = false /\
       shouldStop st' = true).
Proof.
  assert (Hrun : forall called st,
     exists r called',
       run_script (executeTask (S fuel) (S index)) (Finish k) called st
         = Some (r, called', stop st)).
  { intros called0 st0. cbn [run_script].
    destruct (run_script_stopped fuel (S index) k called0 (stop st0) eq_refl)
      as (r & called' & H).
    by exists r, called'. }
  split; [apply Hrun|].
  intros fn param Hfn Hk Hstop. rewrite executeTask_unfold.
  pose proof (lookup_lt_Some _ _ _ Hfn) as Hlt.
  destruct (Nat.leb_spec (length (tasks st)) index); [unfold TaskFn in *; lia|].
  rewrite Hstop, Hfn, Hk. cbn [orb].
  destruct (Hrun false (log (Started index param) st)) as (r & called' & ->).
  destruct r as [|x]; eexists _, _, _; (split; [reflexivity|]);
    destruct called'; cbn; rewrite <- ?app_assoc; done.
Qed.


(** X18: when the body of the first task never throws, in particular
    when every [await next()] of it is inside a [try] whose [catch] block
    does not throw, [invoke()] resolves whatever the tasks after it do:
    what they throw stops at the [catch] block. *)
Theorem catch_shields (this : State) (fn : TaskFn) :
  tasks this !! 0%nat = Some fn ->
  (forall param, never_throws (fn param)) ->
  exists st, invoke this = Some (Ok, st).
Proof.
  intros Hfn Hnever. unfold invoke.
  destruct (executeTask_total (tasks this) (S (length (tasks this))) 0 VUndefined
              (mkState (tasks this) false (trace this))
              eq_refl ltac:(lia) ltac:(lia)) as (r & st & Hrun & _).
  exists st. rewrite Hrun.
  apply executeTask_never_throws in Hrun as ->; [done|].
  cbn [tasks]. intros fn' Hfn'. unfold TaskFn in *. rewrite Hfn in Hfn'.
  injection Hfn' as <-. apply Hnever.
Qed.

(** [try { await next(); } catch {}] before a task that throws. *)
Lemma catch_shields_witness :
  exists st, invoke (addTask (addTask new_Tasks Examples.catch_all) Examples.throw_boom)
             = Some (Ok, st).
Proof.
  apply (catch_shields (addTask (addTask new_Tasks Examples.catch_all) Examples.throw_boom)
           Examples.catch_all).
  - reflexivity.
  - intros param. simpl. done.
Defined.

End RunnerProps.
